(** * Database backup service (server/src/services/backup.service.ts)

    A shallow embedding of [BackupService]: the cron registration guarded by
    the backup lock, the dump pipeline of [handleBackupDatabase] and the
    retention sweep of [cleanupDatabaseBackups], followed by the properties
    of the backup design document that the code satisfies or fails. *)

From Stdlib Require Import List Ascii String Bool Arith ZArith NArith Lia.
From Stdlib Require Import Permutation Sorted DecimalN DecimalPos.
Import ListNotations.

Set Implicit Arguments.
Local Open Scope list_scope.

(** ** JavaScript strings

    A JS string is modelled as the list of its code units; file names and
    paths of the backup folder are ASCII, so a code unit is an [ascii]. *)

Definition str := list ascii.

Definition js (s : string) : str := list_ascii_of_string s.

Definition code_unit (c : ascii) : N := N_of_ascii c.

Definition ascii_eqb (a b : ascii) : bool := N.eqb (code_unit a) (code_unit b).

Fixpoint str_eqb (a b : str) : bool :=
  match a, b with
  | [], [] => true
  | x :: a', y :: b' => ascii_eqb x y && str_eqb a' b'
  | _, _ => false
  end.

(** [a < b] on strings, as the abstract relational comparison of JS does it:
    code unit by code unit, a proper prefix being smaller. *)
Fixpoint str_ltb (a b : str) : bool :=
  match a, b with
  | _, [] => false
  | [], _ :: _ => true
  | x :: a', y :: b' =>
      if N.ltb (code_unit x) (code_unit y) then true
      else if N.eqb (code_unit x) (code_unit y) then str_ltb a' b'
      else false
  end.

Definition str_leb (a b : str) : bool := negb (str_ltb b a).

(** [s.startsWith(p)] *)
Fixpoint starts_with (p s : str) : bool :=
  match p, s with
  | [], _ => true
  | x :: p', y :: s' => ascii_eqb x y && starts_with p' s'
  | _ :: _, [] => false
  end.

(** [s.includes(p)] *)
Fixpoint includes (p s : str) : bool :=
  starts_with p s ||
  match s with
  | [] => false
  | _ :: s' => includes p s'
  end.

(** [s.replace(p, r)] with a string pattern: only the first occurrence of
    [p] is replaced. *)
Fixpoint replace_first (p r s : str) : str :=
  if starts_with p s then r ++ skipn (List.length p) s
  else match s with
       | [] => []
       | c :: s' => c :: replace_first p r s'
       end.

(** Decimal rendering of a non-negative integer in a template literal. *)
Fixpoint uint_chars (d : Decimal.uint) : str :=
  match d with
  | Decimal.Nil => []
  | Decimal.D0 d' => "0"%char :: uint_chars d'
  | Decimal.D1 d' => "1"%char :: uint_chars d'
  | Decimal.D2 d' => "2"%char :: uint_chars d'
  | Decimal.D3 d' => "3"%char :: uint_chars d'
  | Decimal.D4 d' => "4"%char :: uint_chars d'
  | Decimal.D5 d' => "5"%char :: uint_chars d'
  | Decimal.D6 d' => "6"%char :: uint_chars d'
  | Decimal.D7 d' => "7"%char :: uint_chars d'
  | Decimal.D8 d' => "8"%char :: uint_chars d'
  | Decimal.D9 d' => "9"%char :: uint_chars d'
  end.

Definition decimal (n : N) : str := uint_chars (N.to_uint n).

(** ** Regular expressions

    The two regex literals of the sweep use literal characters, [\d], [+]
    and [$]; they are matched here with Brzozowski derivatives. *)

Module Regex.

Inductive regex : Type :=
| Void : regex
| Eps : regex
| Chr : ascii -> regex
| Digit : regex
| Any : regex
| Cat : regex -> regex -> regex
| Alt : regex -> regex -> regex
| Star : regex -> regex.

Definition is_digit (c : ascii) : bool :=
  N.leb 48 (code_unit c) && N.leb (code_unit c) 57.

Fixpoint nullable (r : regex) : bool :=
  match r with
  | Void => false
  | Eps => true
  | Chr _ => false
  | Digit => false
  | Any => false
  | Cat r1 r2 => nullable r1 && nullable r2
  | Alt r1 r2 => nullable r1 || nullable r2
  | Star _ => true
  end.

Fixpoint deriv (c : ascii) (r : regex) : regex :=
  match r with
  | Void => Void
  | Eps => Void
  | Chr d => if ascii_eqb c d then Eps else Void
  | Digit => if is_digit c then Eps else Void
  | Any => Eps
  | Cat r1 r2 =>
      if nullable r1 then Alt (Cat (deriv c r1) r2) (deriv c r2)
      else Cat (deriv c r1) r2
  | Alt r1 r2 => Alt (deriv c r1) (deriv c r2)
  | Star r1 => Cat (deriv c r1) (Star r1)
  end.

(** The whole of [s] is matched by [r]. *)
Fixpoint matches (r : regex) (s : str) : bool :=
  match s with
  | [] => nullable r
  | c :: s' => matches (deriv c r) s'
  end.

Fixpoint lit (s : str) : regex :=
  match s with
  | [] => Eps
  | c :: s' => Cat (Chr c) (lit s')
  end.

Definition plus (r : regex) : regex := Cat r (Star r).

(** [s.match(/r$/)] is truthy: the pattern has no [^], so a match may start
    at any index; [$] (without the [m] flag) makes it end with the input. *)
Definition search_to_end (r : regex) (s : str) : bool :=
  matches (Cat (Star Any) r) s.

(** Denotation of a regex, against which the matcher is checked. *)
Inductive Matches : regex -> str -> Prop :=
| MEps : Matches Eps []
| MChr c : Matches (Chr c) [c]
| MDigit c : is_digit c = true -> Matches Digit [c]
| MAny c : Matches Any [c]
| MCat r1 r2 s1 s2 : Matches r1 s1 -> Matches r2 s2 -> Matches (Cat r1 r2) (s1 ++ s2)
| MAltL r1 r2 s : Matches r1 s -> Matches (Alt r1 r2) s
| MAltR r1 r2 s : Matches r2 s -> Matches (Alt r1 r2) s
| MStar0 r : Matches (Star r) []
| MStarS r c s1 s2 : Matches r (c :: s1) -> Matches (Star r) s2 ->
                     Matches (Star r) (c :: s1 ++ s2).

End Regex.

Import Regex.

(** ** Arrays *)

Section Sorting.
Variable A : Type.
Variable leb : A -> A -> bool.

Fixpoint insert_sorted (x : A) (l : list A) : list A :=
  match l with
  | [] => [x]
  | y :: l' => if leb x y then x :: l else y :: insert_sorted x l'
  end.

(** A stable sort: of two elements that compare equal, the one that came
    first in the input stays first. *)
Fixpoint sort_by (l : list A) : list A :=
  match l with
  | [] => []
  | x :: l' => insert_sorted x (sort_by l')
  end.
End Sorting.

(** [arr.sort()] on an array of strings: the default comparator orders by
    code units, and the result of a stable sort does not depend on the
    algorithm. *)
Definition sort (l : list str) : list str := sort_by str_leb l.

(** [arr.reverse()] *)
Definition reverse (l : list str) : list str := rev l.

(** [arr.slice(start)]: a negative [start] counts from the end. *)
Definition slice (start : Z) (l : list str) : list str :=
  let len := Z.of_nat (List.length l) in
  let from := if (start <? 0)%Z then Z.max (len + start) 0 else Z.min start len in
  skipn (Z.to_nat from) l.

Definition mem (x : str) (l : list str) : bool := existsb (str_eqb x) l.

(** ** Storage repository

    The storage repository (src/repositories/storage.repository.ts) is not
    part of the excerpt; the service uses its [readdir], [unlink], [rename]
    and [createWriteStream]. The file system is the list of the paths that
    exist, in directory order, and a failure of the file system is a
    parameter of the operation that can fail. *)

Definition FS := list str.

(** [path.join] of a normalised folder and a single file name. *)
Definition path_join (dir file : str) : str := dir ++ "/"%char :: file.

Fixpoint strip_prefix (p s : str) : option str :=
  match p, s with
  | [], _ => Some s
  | x :: p', y :: s' => if ascii_eqb x y then strip_prefix p' s' else None
  | _ :: _, [] => None
  end.

Definition is_file_name (n : str) : bool :=
  negb (str_eqb n []) && negb (existsb (ascii_eqb "/"%char) n).

Definition entry_of (dir p : str) : list str :=
  match strip_prefix (dir ++ ["/"%char]) p with
  | Some n => if is_file_name n then [n] else []
  | None => []
  end.

(** Modelled from the spec: the store lists the artifacts of the backup
    folder; [readdir] gives the names of the entries of [dir]. *)
Definition readdir (dir : str) (fs : FS) : list str := flat_map (entry_of dir) fs.

Definition remove_path (p : str) (fs : FS) : FS :=
  filter (fun q => negb (str_eqb p q)) fs.

(** Modelled from the spec: the store deletes artifacts, and a deletion can
    fail; [unlink] rejects when the file is missing or the deletion is
    denied. *)
Definition unlink (denied : str -> bool) (p : str) (fs : FS) : option FS :=
  if denied p then None
  else if mem p fs then Some (remove_path p fs)
  else None.

(** Modelled from the spec: the rename is the atomic publish, and it can
    fail; [rename] rejects when the source is missing or the move is denied,
    and an existing target is replaced. *)
Definition rename (denied : str -> str -> bool) (a b : str) (fs : FS) : option FS :=
  if denied a b then None
  else if mem a fs then
    Some (map (fun q => if str_eqb a q then b else q)
              (filter (fun q => str_eqb a q || negb (str_eqb b q)) fs))
  else None.

(** Modelled from the spec: a write destination is opened for the candidate
    artifact name; [createWriteStream] creates the file if needed. *)
Definition createWriteStream (p : str) (fs : FS) : FS :=
  if mem p fs then fs else fs ++ [p].

(** ** Logger, configuration and the outside world *)

Inductive log_entry : Type :=
| LDebug (msg : str)
| LError (msg : str)
| LErrorWith (msg err : str).

Inductive storage_call : Type :=
| CReaddir (dir : str)
| CUnlink (p : str)
| CRename (a b : str)
| CCreateWriteStream (p : str).

Record spawn_call : Type := {
  command : str;
  args : list str;
  (** [None] when [spawn] gets no [env] option *)
  spawn_env : option (option str * option str)
}.

Definition env_PATH (c : spawn_call) : option str :=
  match spawn_env c with Some (p, _) => p | None => None end.

Definition env_PGPASSWORD (c : spawn_call) : option str :=
  match spawn_env c with Some (_, p) => p | None => None end.

Record DatabaseConfig : Type := {
  connectionType : str;
  url : str;
  username : str;
  host : str;
  password : str
}.

Record BackupConfig : Type := {
  cronExpression : str;
  enabled : bool;
  keepLastAmount : Z
}.

(** What a run of the service reads from outside of itself. *)
Record Env : Type := {
  (** [this.configRepository.getEnv().database.config] *)
  database : DatabaseConfig;
  (** [getConfig(...).backup.database] *)
  backup : BackupConfig;
  (** [process.env.PATH] *)
  PATH : option str;
  (** [StorageCore.getBaseFolder(StorageFolder.BACKUPS)] *)
  backupsFolder : str;
  (** [Date.now()], milliseconds since the epoch *)
  now : N;
  (** whether the pipes of the two child processes exist *)
  pgdump_stdout : bool;
  pgdump_stderr : bool;
  gzip_stdout : bool;
  gzip_stderr : bool;
  (** failures of the file system *)
  rename_denied : str -> str -> bool;
  unlink_denied : str -> bool
}.

Record World : Type := {
  fs : FS;
  logs : list log_entry;
  calls : list storage_call
}.

Definition log (e : log_entry) (w : World) : World :=
  {| fs := fs w; logs := logs w ++ [e]; calls := calls w |}.

Definition call (c : storage_call) (w : World) : World :=
  {| fs := fs w; logs := logs w; calls := calls w ++ [c] |}.

Definition set_fs (f : FS) (w : World) : World :=
  {| fs := f; logs := logs w; calls := calls w |}.

(** ** cleanupDatabaseBackups *)

Definition re_failed : regex :=
  Cat (lit (js "immich-db-backup-")) (Cat (plus Digit) (lit (js ".sql.gz.tmp"))).

Definition re_backup : regex :=
  Cat (lit (js "immich-db-backup-")) (Cat (plus Digit) (lit (js ".sql.gz"))).

Definition failedBackups (files : list str) : list str :=
  filter (search_to_end re_failed) files.

Definition backups (files : list str) : list str :=
  reverse (sort (filter (search_to_end re_backup) files)).

Definition toDelete (keep : Z) (files : list str) : list str :=
  slice keep (backups files) ++ failedBackups files.

(** The [for] loop: the first [unlink] that rejects ends it, the rejection
    leaving the function ([false]). *)
Fixpoint unlink_each (E : Env) (files : list str) (w : World) : World * bool :=
  match files with
  | [] => (w, true)
  | file :: rest =>
      let p := path_join (backupsFolder E) file in
      let w1 := call (CUnlink p) w in
      match unlink (unlink_denied E) p (fs w1) with
      | Some f => unlink_each E rest (set_fs f w1)
      | None => (w1, false)
      end
  end.

Definition cleanupDatabaseBackups (E : Env) (w : World) : World * bool :=
  let w := log (LDebug (js "Database Backup Cleanup Started")) w in
  let files := readdir (backupsFolder E) (fs w) in
  let w := call (CReaddir (backupsFolder E)) w in
  let del := toDelete (keepLastAmount (backup E)) files in
  match unlink_each E del w with
  | (w, true) =>
      (log (LDebug (js "Database Backup Cleanup Finished, deleted "
                    ++ decimal (N.of_nat (List.length del)) ++ js " backups")) w,
       true)
  | (w, false) => (w, false)
  end.

(** ** handleBackupDatabase *)

Inductive JobStatus : Type := SUCCESS | FAILED.

(** The promise built by [new Promise((resolve, reject) => ...)]. *)
Inductive promise : Type :=
| Pending
| Fulfilled
| RejectedWith (reason : str).

(** What the child processes emit once the listeners are attached; an exit
    code is [None] for [null] (the process was ended by a signal). *)
Inductive event : Type :=
| PgdumpError (err : str)
| GzipError (err : str)
| PgdumpStderr (data : str)
| GzipStderr (data : str)
| PgdumpExit (exitCode : option Z)
| GzipExit (exitCode : option Z).

Record Pipeline : Type := {
  world : World;
  settled : promise;
  (** [pgdump.exitCode], [null] until the process has exited *)
  pgdump_exitCode : option Z;
  pgdumpLogs : str;
  gzipLogs : str
}.

Definition on_world (f : World -> World) (p : Pipeline) : Pipeline :=
  {| world := f (world p); settled := settled p;
     pgdump_exitCode := pgdump_exitCode p;
     pgdumpLogs := pgdumpLogs p; gzipLogs := gzipLogs p |}.

Definition settle (v : promise) (p : Pipeline) : Pipeline :=
  {| world := world p;
     settled := match settled p with Pending => v | s => s end;
     pgdump_exitCode := pgdump_exitCode p;
     pgdumpLogs := pgdumpLogs p; gzipLogs := gzipLogs p |}.

Definition resolve : Pipeline -> Pipeline := settle Fulfilled.

Definition reject (reason : str) : Pipeline -> Pipeline := settle (RejectedWith reason).

(** [${code}] *)
Definition show_code (c : option Z) : str :=
  match c with
  | None => js "null"
  | Some z => if (z <? 0)%Z then "-"%char :: decimal (Z.to_N (- z))
              else decimal (Z.to_N z)
  end.

(** [code !== 0] *)
Definition nonzero (c : option Z) : bool :=
  match c with
  | Some z => negb (z =? 0)%Z
  | None => true
  end.

Definition isUrlConnection (c : DatabaseConfig) : bool :=
  str_eqb (connectionType c) (js "url").

Definition databaseParams (c : DatabaseConfig) : list str :=
  if isUrlConnection c then [url c]
  else [js "-U"; username c; js "-h"; host c].

Definition spawn_pgdump (E : Env) : spawn_call :=
  {| command := js "pg_dumpall";
     args := databaseParams (database E) ++ [js "--clean"; js "--if-exists"];
     spawn_env := Some (PATH E,
                        if isUrlConnection (database E) then None
                        else Some (password (database E))) |}.

Definition spawn_gzip : spawn_call :=
  {| command := js "gzip"; args := []; spawn_env := None |}.

Definition backupFilePath (E : Env) : str :=
  path_join (backupsFolder E)
            (js "immich-db-backup-" ++ decimal (now E) ++ js ".sql.gz.tmp").

(** The body of the promise up to the registration of the listeners; the
    boolean tells whether they were registered. *)
Definition executor (E : Env) (w : World) : Pipeline * bool :=
  let w := call (CCreateWriteStream (backupFilePath E)) w in
  let w := set_fs (createWriteStream (backupFilePath E) (fs w)) w in
  let p := {| world := w; settled := Pending; pgdump_exitCode := None;
              pgdumpLogs := []; gzipLogs := [] |} in
  if negb (gzip_stdout E) then
    (* [gzip.stdout.pipe(fileStream)] throws inside the executor *)
    (reject (js "TypeError: Cannot read properties of null (reading 'pipe')") p, false)
  else if negb (pgdump_stderr E) || negb (pgdump_stdout E) then
    (reject (js "Backup failed, could not spawn backup process")
       (on_world (log (LError (js "Backup failed, could not spawn backup process"))) p),
     false)
  else if negb (gzip_stderr E) || negb (gzip_stdout E) then
    (reject (js "Backup failed, could not spawn gzip process")
       (on_world (log (LError (js "Backup failed, could not spawn gzip process"))) p),
     false)
  else (p, true).

Definition rename_error : str := js "rename failed".

Definition handle (E : Env) (p : Pipeline) (ev : event) : Pipeline :=
  match ev with
  | PgdumpError err =>
      reject err (on_world (log (LErrorWith (js "Backup failed with error") err)) p)
  | GzipError err =>
      reject err (on_world (log (LErrorWith (js "Gzip failed with error") err)) p)
  | PgdumpStderr data =>
      {| world := world p; settled := settled p;
         pgdump_exitCode := pgdump_exitCode p;
         pgdumpLogs := pgdumpLogs p ++ data; gzipLogs := gzipLogs p |}
  | GzipStderr data =>
      {| world := world p; settled := settled p;
         pgdump_exitCode := pgdump_exitCode p;
         pgdumpLogs := pgdumpLogs p; gzipLogs := gzipLogs p ++ data |}
  | PgdumpExit c =>
      let p := {| world := world p; settled := settled p;
                  pgdump_exitCode := c;
                  pgdumpLogs := pgdumpLogs p; gzipLogs := gzipLogs p |} in
      if nonzero c then
        let msg := js "Backup failed with code " ++ show_code c in
        on_world (log (LError (pgdumpLogs p)))
          (reject msg (on_world (log (LError msg)) p))
      else if negb (str_eqb (pgdumpLogs p) []) then
        on_world (log (LDebug (js "pgdump_all logs" ++ ["010"%char] ++ pgdumpLogs p))) p
      else p
  | GzipExit c =>
      if nonzero c then
        let msg := js "Gzip failed with code " ++ show_code c in
        on_world (log (LError (gzipLogs p)))
          (reject msg (on_world (log (LError msg)) p))
      else if nonzero (pgdump_exitCode p) then
        on_world (log (LError (js "Gzip exited with code 0 but pgdump exited with "
                               ++ show_code (pgdump_exitCode p)))) p
      else
        let src := backupFilePath E in
        let dst := replace_first (js ".tmp") [] src in
        let p := on_world (call (CRename src dst)) p in
        match rename (rename_denied E) src dst (fs (world p)) with
        | Some f => resolve (on_world (set_fs f) p)
        | None =>
            reject rename_error
              (on_world (log (LErrorWith (js "Backup failed with error") rename_error)) p)
        end
  end.

Inductive outcome : Type :=
| Returns (status : JobStatus)
(** the promise returned by the method rejects *)
| Throws
(** the awaited promise never settles *)
| Hangs.

Record Run : Type := {
  result : outcome;
  final : World;
  spawned : list spawn_call
}.

Definition handleBackupDatabase (E : Env) (fs0 : FS) (events : list event) : Run :=
  let w := log (LDebug (js "Database Backup Started"))
               {| fs := fs0; logs := []; calls := [] |} in
  let sp := [spawn_pgdump E; spawn_gzip] in
  let (p, listening) := executor E w in
  let p := if listening then fold_left (handle E) events p else p in
  match settled p with
  | Pending => {| result := Hangs; final := world p; spawned := sp |}
  | RejectedWith error =>
      {| result := Returns FAILED;
         final := log (LErrorWith (js "Database Backup Failure") error) (world p);
         spawned := sp |}
  | Fulfilled =>
      let w := log (LDebug (js "Database Backup Success")) (world p) in
      match cleanupDatabaseBackups E w with
      | (w, true) => {| result := Returns SUCCESS; final := w; spawned := sp |}
      | (w, false) => {| result := Throws; final := w; spawned := sp |}
      end
  end.

(** ** Scheduling: onBootstrap and onConfigUpdate *)

Inductive ImmichWorker : Type := API | MICROSERVICES.

Definition worker_eqb (a b : ImmichWorker) : bool :=
  match a, b with
  | API, API | MICROSERVICES, MICROSERVICES => true
  | _, _ => false
  end.

(** The calls the service makes to the job repository; the callback handed
    to [addCronJob] always queues [JobName.BACKUP_DATABASE]. *)
Inductive cron_call : Type :=
| AddCronJob (name expression : str) (start : bool)
| UpdateCronJob (name expression : str) (start : bool).

Record Service : Type := {
  backupLock : bool;
  cron : list cron_call
}.

Definition initial : Service := {| backupLock := false; cron := [] |}.

(** [tryLock] is what [databaseRepository.tryLock(DatabaseLock.BackupDatabase)]
    answers, should it be asked. *)
Definition onBootstrap (workerType : ImmichWorker) (config : BackupConfig)
           (tryLock : bool) (s : Service) : Service :=
  if negb (worker_eqb workerType API) then s
  else
    let s := {| backupLock := tryLock; cron := cron s |} in
    if backupLock s then
      {| backupLock := backupLock s;
         cron := cron s ++ [AddCronJob (js "backupDatabase") (cronExpression config)
                                       (enabled config)] |}
    else s.

Definition onConfigUpdate (newConfig : BackupConfig) (oldConfig : option BackupConfig)
           (s : Service) : Service :=
  match oldConfig with
  | None => s
  | Some _ =>
      if negb (backupLock s) then s
      else {| backupLock := backupLock s;
              cron := cron s ++ [UpdateCronJob (js "backupDatabase")
                                               (cronExpression newConfig)
                                               (enabled newConfig)] |}
  end.

Inductive app_event : Type :=
| Bootstrap (workerType : ImmichWorker) (config : BackupConfig) (tryLock : bool)
| ConfigUpdate (newConfig : BackupConfig) (oldConfig : option BackupConfig).

Definition dispatch (s : Service) (e : app_event) : Service :=
  match e with
  | Bootstrap wt c l => onBootstrap wt c l s
  | ConfigUpdate n o => onConfigUpdate n o s
  end.

Definition run_events (evs : list app_event) (s : Service) : Service :=
  fold_left dispatch evs s.

(** ** Artifact names, as the design document words them

    A final artifact is named [immich-db-backup-<digits>.sql.gz], a
    temporary one [immich-db-backup-<digits>.sql.gz.tmp]; the digits are the
    creation time in milliseconds. *)

Definition all_digits (d : str) : bool :=
  negb (str_eqb d []) && forallb is_digit d.

Definition final_name (d : str) : str := js "immich-db-backup-" ++ d ++ js ".sql.gz".

Definition tmp_name (d : str) : str := js "immich-db-backup-" ++ d ++ js ".sql.gz.tmp".

(** The whole name has the form, not only its end. *)
Definition well_formed_final (f : str) : bool := matches re_backup f.

Definition well_formed_tmp (f : str) : bool := matches re_failed f.

Definition well_formed (f : str) : bool := well_formed_final f || well_formed_tmp f.

Fixpoint leading_digits (s : str) : str :=
  match s with
  | c :: s' => if is_digit c then c :: leading_digits s' else []
  | [] => []
  end.

Definition digits_value (d : str) : N :=
  fold_left (fun acc c => (10 * acc + (code_unit c - 48))%N) d 0%N.

(** The digits embedded in a well-formed name, and the time they denote. *)
Definition stamp (f : str) : str :=
  leading_digits (skipn (List.length (js "immich-db-backup-")) f).

Definition timestamp (f : str) : N := digits_value (stamp f).

(** A well-formed final name whose timestamp has [width] digits. *)
Definition final_of_width (width : nat) (f : str) : bool :=
  well_formed_final f && Nat.eqb (List.length (stamp f)) width.

(** A well-formed temporary name whose timestamp has [width] digits. *)
Definition tmp_of_width (width : nat) (f : str) : bool :=
  well_formed_tmp f && Nat.eqb (List.length (stamp f)) width.

(** Oldest first, by the number in the name. *)
Definition sort_by_timestamp (l : list str) : list str :=
  sort_by (fun a b => N.leb (timestamp a) (timestamp b)) l.


(** ** Vocabulary of the statements *)

(** The [unlink] calls for a list of names of the backup folder. *)
Definition unlink_calls (E : Env) (files : list str) : list storage_call :=
  map (fun f => CUnlink (path_join (backupsFolder E) f)) files.

(** The file system without the given names of the backup folder. *)
Definition without (E : Env) (files : list str) (fs0 : FS) : FS :=
  filter (fun q => negb (mem q (map (path_join (backupsFolder E)) files))) fs0.

(** Each path is listed once. *)
Fixpoint distinct (l : list str) : bool :=
  match l with
  | [] => true
  | x :: l' => negb (mem x l') && distinct l'
  end.

(** The names a sweep of this world would delete. *)
Definition candidates (E : Env) (w : World) : list str :=
  toDelete (keepLastAmount (backup E)) (readdir (backupsFolder E) (fs w)).

(** No deletion of the sweep is denied by the file system. *)
Definition deletable (E : Env) (w : World) : bool :=
  forallb (fun f => negb (unlink_denied E (path_join (backupsFolder E) f)))
          (candidates E w).

Definition cleanup_started : log_entry :=
  LDebug (js "Database Backup Cleanup Started").

Definition cleanup_finished (deleted : nat) : log_entry :=
  LDebug (js "Database Backup Cleanup Finished, deleted "
          ++ decimal (N.of_nat deleted) ++ js " backups").


(** ** A deployment to run the code on *)

Definition example_database : DatabaseConfig :=
  {| connectionType := js "host"; url := [];
     username := js "postgres"; host := js "database"; password := js "hunter2" |}.

Definition deployment (db : DatabaseConfig) (keep : Z) (time : N)
           (no_rename : str -> str -> bool) (no_unlink : str -> bool) : Env :=
  {| database := db;
     backup := {| cronExpression := js "0 02 * * *"; enabled := true;
                  keepLastAmount := keep |};
     PATH := Some (js "/usr/bin");
     backupsFolder := js "upload/backups";
     now := time;
     pgdump_stdout := true; pgdump_stderr := true;
     gzip_stdout := true; gzip_stderr := true;
     rename_denied := no_rename;
     unlink_denied := no_unlink |}.

Definition example_env : Env :=
  deployment example_database 2 1700000000000 (fun _ _ => false) (fun _ => false).

Definition in_backups (names : list str) : World :=
  {| fs := map (path_join (js "upload/backups")) names; logs := []; calls := [] |}.

(** The folder of the example scenario of the design document. *)
Definition example_world : World :=
  in_backups [js "immich-db-backup-100.sql.gz"; js "immich-db-backup-200.sql.gz";
              js "immich-db-backup-300.sql.gz"; js "immich-db-backup-400.sql.gz.tmp"].

(** One backup to keep, and two backups whose timestamps differ in width. *)
Definition keep_one_env : Env :=
  deployment example_database 1 1700000000000 (fun _ _ => false) (fun _ => false).

Definition mixed_width_world : World :=
  in_backups [js "immich-db-backup-9.sql.gz"; js "immich-db-backup-10.sql.gz"].

(** Two orphaned temporaries, the first of which cannot be deleted. *)
Definition stubborn_env : Env :=
  deployment example_database 2 1700000000000 (fun _ _ => false)
    (str_eqb (js "upload/backups/immich-db-backup-400.sql.gz.tmp")).

Definition two_orphans_world : World :=
  in_backups [js "immich-db-backup-400.sql.gz.tmp"; js "immich-db-backup-500.sql.gz.tmp"].

(** Files of somebody else whose names only end like artifact names. *)
Definition foreign_world : World :=
  in_backups [js "immich-db-backup-100.sql.gz"; js "immich-db-backup-200.sql.gz";
              js "archive-immich-db-backup-050.sql.gz";
              js "notes-on-immich-db-backup-1.sql.gz.tmp"].

(** A file system that refuses every rename. *)
Definition jammed_env : Env :=
  deployment example_database 2 1700000000000 (fun _ _ => true) (fun _ => false).

(** The instance did not get the backup lock at this event: an API worker
    was refused it, any other worker does not ask for it. *)
Definition lock_refused (e : app_event) : bool :=
  match e with
  | Bootstrap API _ tryLock => negb tryLock
  | _ => true
  end.

Definition example_policy : BackupConfig :=
  {| cronExpression := js "0 02 * * *"; enabled := true; keepLastAmount := 14 |}.

Definition with_password (pw : str) (c : DatabaseConfig) : DatabaseConfig :=
  {| connectionType := connectionType c; url := url c;
     username := username c; host := host c; password := pw |}.

Definition with_database (c : DatabaseConfig) (E : Env) : Env :=
  {| database := c; backup := backup E; PATH := PATH E;
     backupsFolder := backupsFolder E; now := now E;
     pgdump_stdout := pgdump_stdout E; pgdump_stderr := pgdump_stderr E;
     gzip_stdout := gzip_stdout E; gzip_stderr := gzip_stderr E;
     rename_denied := rename_denied E; unlink_denied := unlink_denied E |}.

(** The exit codes the producer, and the compressor, report in a run. *)
Definition pgdump_exits (events : list event) : list (option Z) :=
  flat_map (fun ev => match ev with PgdumpExit c => [c] | _ => [] end) events.

Definition gzip_exits (events : list event) : list (option Z) :=
  flat_map (fun ev => match ev with GzipExit c => [c] | _ => [] end) events.

Definition is_stderr (ev : event) : bool :=
  match ev with
  | PgdumpStderr _ | GzipStderr _ => true
  | _ => false
  end.

Definition is_exit (ev : event) : bool :=
  match ev with
  | PgdumpExit _ | GzipExit _ => true
  | _ => false
  end.

Definition is_rename (c : storage_call) : bool :=
  match c with
  | CRename _ _ => true
  | _ => false
  end.

Definition is_readdir (c : storage_call) : bool :=
  match c with
  | CReaddir _ => true
  | _ => false
  end.

(** The storage calls of the pipeline, as opposed to those of the sweep. *)
Definition pipeline_call (c : storage_call) : bool :=
  match c with
  | CCreateWriteStream _ | CRename _ _ => true
  | CReaddir _ | CUnlink _ => false
  end.

(** How many sweeps were started: each lists the folder once. *)
Definition sweeps (w : World) : nat := List.length (filter is_readdir (calls w)).

(** The state of the promise when the child processes have emitted [events]. *)
Definition pipeline (E : Env) (fs0 : FS) (events : list event) : Pipeline :=
  let w := log (LDebug (js "Database Backup Started"))
               {| fs := fs0; logs := []; calls := [] |} in
  let (p, listening) := executor E w in
  if listening then fold_left (handle E) events p else p.

(** The pipes of both child processes exist. *)
Definition piped (E : Env) : bool :=
  pgdump_stdout E && pgdump_stderr E && gzip_stdout E && gzip_stderr E.

(** The name under which a run of [E] publishes its artifact. *)
Definition published (E : Env) : str :=
  path_join (backupsFolder E) (final_name (decimal (now E))).

(** A folder with an artifact and an orphaned temporary. *)
Definition orphan_fs : FS :=
  [js "upload/backups/immich-db-backup-1600000000000.sql.gz";
   js "upload/backups/immich-db-backup-1650000000000.sql.gz.tmp"].

(** The producer is known to have failed, or not to have exited yet: then
    the promise is not fulfilled and nothing was renamed. *)
Definition Failing (p : Pipeline) : Prop :=
  nonzero (pgdump_exitCode p) = true /\
  settled p <> Fulfilled /\
  forallb (fun c => negb (is_rename c)) (calls (world p)) = true.

(** The pipeline has only created and renamed files, and a fulfilled
    promise comes after a rename. *)
Definition Piping (p : Pipeline) : Prop :=
  forallb pipeline_call (calls (world p)) = true /\
  (settled p = Fulfilled -> existsb is_rename (calls (world p)) = true).

(** A run in which the producer exits with status zero and then the
    compressor does: before and between the two exits the processes only
    write to their error streams; [post] is what is emitted afterwards. *)
Definition clean_run (pre mid post : list event) : list event :=
  pre ++ PgdumpExit (Some 0%Z) :: mid ++ GzipExit (Some 0%Z) :: post.

(** The promise is not fulfilled, and the pipeline has left the files and
    the storage calls as they were. *)
Definition Unpublished (f : FS) (c : list storage_call) (p : Pipeline) : Prop :=
  settled p <> Fulfilled /\ fs (world p) = f /\ calls (world p) = c.

(** A run in which the exit of the compressor, with status zero, is seen
    before the exit of the producer, with status zero as well. *)
Definition late_producer_run (pre mid post : list event) : list event :=
  pre ++ GzipExit (Some 0%Z) :: mid ++ PgdumpExit (Some 0%Z) :: post.

(** The name of the temporary file of a run of [E]. *)
Definition temporary (E : Env) : str := tmp_name (decimal (now E)).

(** A keep-count of zero. *)
Definition keep_none_env : Env :=
  deployment example_database 0 1700000000000 (fun _ _ => false) (fun _ => false).

(** The pipes of the compressor are missing. *)
Definition unpiped_env : Env :=
  {| database := example_database; backup := backup example_env;
     PATH := PATH example_env; backupsFolder := backupsFolder example_env;
     now := now example_env;
     pgdump_stdout := true; pgdump_stderr := true;
     gzip_stdout := false; gzip_stderr := true;
     rename_denied := fun _ _ => false; unlink_denied := fun _ => false |}.

(** No name of the folder that the sweep takes for a backup is greater, as
    text, than [name]. *)
Definition greatest_backup (name : str) (files : list str) : bool :=
  forallb (fun f => implb (search_to_end re_backup f) (str_leb f name)) files.

(** * The mobile client

    ** ServerFeatures (mobile-v2/lib/domain/models/server-info/server_features.model.dart) *)

Module ServerFeatures.

Record t : Type := {
  hasPasswordLogin : bool;
  hasOAuthLogin : bool
}.

(** [copyWith({bool? hasPasswordLogin, bool? hasOAuthLogin})]: an argument
    left out is [null], and [??] then keeps the field of [this]. *)
Definition copyWith (self : t) (hasPasswordLogin' hasOAuthLogin' : option bool) : t :=
  {| hasPasswordLogin := match hasPasswordLogin' with
                         | Some b => b
                         | None => hasPasswordLogin self
                         end;
     hasOAuthLogin := match hasOAuthLogin' with
                      | Some b => b
                      | None => hasOAuthLogin self
                      end |}.

(** [const ServerFeatures.initial()] *)
Definition initial : t := {| hasPasswordLogin := true; hasOAuthLogin := false |}.

(** [$b] for a [bool] *)
Definition show_bool (b : bool) : str := if b then js "true" else js "false".

Definition toString (self : t) : str :=
  js "ServerFeatures(hasPasswordLogin: " ++ show_bool (hasPasswordLogin self)
  ++ js ", hasOAuthLogin: " ++ show_bool (hasOAuthLogin self) ++ js ")".

(** [operator ==]; an object is immutable, so the shortcut for an
    [identical] argument gives what the comparison of the fields gives. *)
Definition equals (self other : t) : bool :=
  Bool.eqb (hasPasswordLogin other) (hasPasswordLogin self) &&
  Bool.eqb (hasOAuthLogin other) (hasOAuthLogin self).

(** [hashCode]; [bool_hash] is [bool.hashCode], which the language leaves
    to the platform. *)
Definition hashCode (bool_hash : bool -> Z) (self : t) : Z :=
  Z.lxor (bool_hash (hasPasswordLogin self)) (bool_hash (hasOAuthLogin self)).

End ServerFeatures.

(** ** StoreRepository (mobile-v2/lib/domain/repositories/store.repository.dart)

    The key and row classes ([StoreKey], its converter, [StoreData]) and the
    Drift table are not part of the excerpt; they are taken as the code
    uses them. The table has [id] as its primary key. *)

Module StoreRepository.

(** A value of the primitive type [U] of a key, as the database sees it. *)
Inductive primitive : Type :=
| PInt (i : Z)
| PString (s : str)
| POther.

(** [key.type]: [int], [String], or any other type. *)
Inductive key_type : Type := TInt | TString | TOther.

Record StoreKey (T : Type) : Type := {
  id : Z;
  name : str;
  type : key_type;
  (** [key.converter] *)
  toPrimitive : T -> primitive;
  fromPrimitive : primitive -> option T
}.

Record StoreData : Type := {
  row_id : Z;
  intValue : option Z;
  stringValue : option str
}.

(** The rows of the table, by primary key. *)
Definition Table := Z -> option StoreData.

Definition empty : Table := fun _ => None.

Definition getValueFromStoreData (T : Type) (key : StoreKey T) (data : option StoreData)
  : option T :=
  let primitive :=
    match type key with
    | TInt => match data with
              | Some d => option_map PInt (intValue d)
              | None => None
              end
    | TString => match data with
                 | Some d => option_map PString (stringValue d)
                 | None => None
                 end
    | TOther => None
    end in
  match primitive with
  | Some p => fromPrimitive key p
  | None => None
  end.

Definition tryGet (T : Type) (key : StoreKey T) (tbl : Table) : option T :=
  getValueFromStoreData key (tbl (id key)).

Inductive get_result (T : Type) : Type :=
| Value (v : T)
(** [throw StoreKeyNotFoundException(key)] *)
| StoreKeyNotFoundException (key_id : Z).

Definition get (T : Type) (key : StoreKey T) (tbl : Table) : get_result T :=
  match tryGet key tbl with
  | Some value => Value value
  | None => StoreKeyNotFoundException T (id key)
  end.

(** [storeValue as int] and [storeValue as String]: [None] when the cast
    throws. *)
Definition as_int (p : primitive) : option Z :=
  match p with PInt i => Some i | _ => None end.

Definition as_String (p : primitive) : option str :=
  match p with PString s => Some s | _ => None end.

(** [insertOnConflictUpdate]: the row of that id is replaced as a whole. *)
Definition insertOnConflictUpdate (row : StoreData) (tbl : Table) : Table :=
  fun i => if Z.eqb i (row_id row) then Some row else tbl i.

(** [upsert]; [write_fails] tells whether the database rejects the write.
    Whatever is thrown inside the [try] is logged and answered by [false]. *)
Definition upsert (T : Type) (key : StoreKey T) (value : T) (write_fails : bool)
           (tbl : Table) : Table * bool :=
  let storeValue := toPrimitive key value in
  let intValue :=
    match type key with
    | TInt => option_map Some (as_int storeValue)
    | _ => Some None
    end in
  let stringValue :=
    match type key with
    | TString => option_map Some (as_String storeValue)
    | _ => Some None
    end in
  match intValue, stringValue with
  | Some i, Some s =>
      if write_fails then (tbl, false)
      else (insertOnConflictUpdate
              {| row_id := id key; intValue := i; stringValue := s |} tbl, true)
  | _, _ => (tbl, false)
  end.

Definition delete (T : Type) (key : StoreKey T) (tbl : Table) : Table :=
  fun i => if Z.eqb i (id key) then None else tbl i.

Definition deleteAll (tbl : Table) : Table := empty.

(** [watch]: the stream maps each state of the row to the value of the key. *)
Definition watch (T : Type) (key : StoreKey T) (rows : list (option StoreData))
  : list (option T) :=
  map (getValueFromStoreData key) rows.

End StoreRepository.

(** The casts of [upsert] succeed: the primitive of the value is an [int]
    for a key of type [int], a [String] for a key of type [String]. *)
Definition castable (T : Type) (key : StoreRepository.StoreKey T) (value : T) : bool :=
  match StoreRepository.type key, StoreRepository.toPrimitive key value with
  | StoreRepository.TInt, StoreRepository.PInt _ => true
  | StoreRepository.TInt, _ => false
  | StoreRepository.TString, StoreRepository.PString _ => true
  | StoreRepository.TString, _ => false
  | StoreRepository.TOther, _ => true
  end.

(** The key has one of the two types that the table has a column for. *)
Definition has_column (T : Type) (key : StoreRepository.StoreKey T) : bool :=
  match StoreRepository.type key with
  | StoreRepository.TOther => false
  | _ => true
  end.

(** Keys to run the repository on: a number stored as itself, a flag stored
    as 0 or 1, and a flag with a type that has no column. *)
Definition version_key : StoreRepository.StoreKey Z :=
  {| StoreRepository.id := 0%Z; StoreRepository.name := js "version";
     StoreRepository.type := StoreRepository.TInt;
     StoreRepository.toPrimitive := StoreRepository.PInt;
     StoreRepository.fromPrimitive := StoreRepository.as_int |}.

Definition flag_key : StoreRepository.StoreKey bool :=
  {| StoreRepository.id := 7%Z; StoreRepository.name := js "advancedTroubleshooting";
     StoreRepository.type := StoreRepository.TInt;
     StoreRepository.toPrimitive :=
       fun b : bool => StoreRepository.PInt (if b then 1%Z else 0%Z);
     StoreRepository.fromPrimitive :=
       fun p => match p with
                | StoreRepository.PInt i => Some (negb (Z.eqb i 0))
                | _ => None
                end |}.

Definition raw_flag_key : StoreRepository.StoreKey bool :=
  {| StoreRepository.id := 8%Z; StoreRepository.name := js "rawFlag";
     StoreRepository.type := StoreRepository.TOther;
     StoreRepository.toPrimitive := fun _ : bool => StoreRepository.POther;
     StoreRepository.fromPrimitive := fun _ => None |}.

(** A file system that refuses to delete the oldest backup of the example
    folder. *)
Definition guarded_env : Env :=
  deployment example_database 2 1700000000000 (fun _ _ => false)
    (str_eqb (js "upload/backups/immich-db-backup-100.sql.gz")).

(** Three orphaned temporaries, the second of which cannot be deleted. *)
Definition stubborn_second_env : Env :=
  deployment example_database 2 1700000000000 (fun _ _ => false)
    (str_eqb (js "upload/backups/immich-db-backup-500.sql.gz.tmp")).

Definition three_orphans_world : World :=
  in_backups [js "immich-db-backup-400.sql.gz.tmp"; js "immich-db-backup-500.sql.gz.tmp";
              js "immich-db-backup-600.sql.gz.tmp"].

(** The deployment of the example, one millisecond earlier. *)
Definition earlier_env : Env :=
  deployment example_database 2 1699999999999 (fun _ _ => false) (fun _ => false).

(** * Properties *)

(** ** Strings *)

Lemma ascii_eqb_eq a b : ascii_eqb a b = true <-> a = b.
Proof.
  unfold ascii_eqb, code_unit. rewrite N.eqb_eq. split; [|now intros ->].
  intros H. rewrite <- (ascii_N_embedding a), <- (ascii_N_embedding b). now rewrite H.
Qed.

Lemma ascii_eqb_refl a : ascii_eqb a a = true.
Proof. now apply ascii_eqb_eq. Qed.

Lemma str_eqb_eq a b : str_eqb a b = true <-> a = b.
Proof.
  revert b. induction a as [|x a IH]; intros [|y b]; simpl; try easy.
  rewrite andb_true_iff, ascii_eqb_eq, IH. split.
  - now intros [-> ->].
  - intros H. now inversion H.
Qed.

Lemma str_eqb_refl a : str_eqb a a = true.
Proof. now apply str_eqb_eq. Qed.

Lemma str_eqb_neq a b : str_eqb a b = false <-> a <> b.
Proof.
  rewrite <- str_eqb_eq. destruct (str_eqb a b); split; congruence.
Qed.

Lemma mem_In x l : mem x l = true <-> In x l.
Proof.
  unfold mem. rewrite existsb_exists. split.
  - intros (y & Hy & E). apply str_eqb_eq in E. now subst.
  - intros H. exists x. split; [assumption | apply str_eqb_refl].
Qed.

Lemma mem_not_In x l : mem x l = false <-> ~ In x l.
Proof.
  rewrite <- mem_In. destruct (mem x l); split; congruence.
Qed.

Lemma code_unit_inj a b : code_unit a = code_unit b -> a = b.
Proof. intros H. apply ascii_eqb_eq. unfold ascii_eqb. now apply N.eqb_eq. Qed.

Lemma str_ltb_irrefl a : str_ltb a a = false.
Proof.
  induction a as [|x a IH]; simpl; [reflexivity|].
  now rewrite N.ltb_irrefl, N.eqb_refl.
Qed.

Lemma str_ltb_trans a b c :
  str_ltb a b = true -> str_ltb b c = true -> str_ltb a c = true.
Proof.
  revert b c. induction a as [|x a IH]; intros [|y b] [|z c]; simpl; try easy.
  destruct (N.ltb_spec (code_unit x) (code_unit y)) as [Hxy|Hxy];
    destruct (N.ltb_spec (code_unit y) (code_unit z)) as [Hyz|Hyz];
    destruct (N.eqb_spec (code_unit x) (code_unit y)) as [Exy|Exy];
    destruct (N.eqb_spec (code_unit y) (code_unit z)) as [Eyz|Eyz];
    destruct (N.ltb_spec (code_unit x) (code_unit z)) as [Hxz|Hxz];
    destruct (N.eqb_spec (code_unit x) (code_unit z)) as [Exz|Exz];
    try easy; try lia.
  apply IH.
Qed.

Lemma str_ltb_total a b : str_ltb a b = false -> str_ltb b a = false -> a = b.
Proof.
  revert b. induction a as [|x a IH]; intros [|y b]; simpl; try easy.
  destruct (N.ltb_spec (code_unit x) (code_unit y)) as [Hxy|Hxy]; [easy|].
  destruct (N.ltb_spec (code_unit y) (code_unit x)) as [Hyx|Hyx]; [|].
  - destruct (N.eqb_spec (code_unit x) (code_unit y)); [lia|easy].
  - assert (E : code_unit x = code_unit y) by lia.
    rewrite E, N.eqb_refl. intros H1 H2.
    apply code_unit_inj in E. subst. f_equal. now apply IH.
Qed.

Lemma str_ltb_asym a b : str_ltb a b = true -> str_ltb b a = false.
Proof.
  intros H. destruct (str_ltb b a) eqn:E; [|reflexivity].
  pose proof (str_ltb_trans _ _ _ H E) as T. now rewrite str_ltb_irrefl in T.
Qed.

Lemma str_leb_refl a : str_leb a a = true.
Proof. unfold str_leb. now rewrite str_ltb_irrefl. Qed.

Lemma str_leb_total a b : str_leb a b = true \/ str_leb b a = true.
Proof.
  unfold str_leb. destruct (str_ltb b a) eqn:E; [right|left; reflexivity].
  now rewrite (str_ltb_asym _ _ E).
Qed.

Lemma str_leb_trans a b c :
  str_leb a b = true -> str_leb b c = true -> str_leb a c = true.
Proof.
  unfold str_leb. rewrite !negb_true_iff. intros Hba Hcb.
  destruct (str_ltb c a) eqn:Hca; [|reflexivity].
  destruct (str_ltb a b) eqn:Hab.
  - pose proof (str_ltb_trans _ _ _ Hca Hab). congruence.
  - assert (a = b) by now apply str_ltb_total. subst. congruence.
Qed.

Lemma str_leb_antisym a b : str_leb a b = true -> str_leb b a = true -> a = b.
Proof.
  unfold str_leb. rewrite !negb_true_iff. intros. now apply str_ltb_total.
Qed.

(** ** The matcher agrees with the denotation of the regex *)

Lemma Matches_Cat_inv r1 r2 s :
  Matches (Cat r1 r2) s ->
  exists s1 s2, s = s1 ++ s2 /\ Matches r1 s1 /\ Matches r2 s2.
Proof. inversion 1; subst; eauto. Qed.

Lemma Matches_Alt_inv r1 r2 s :
  Matches (Alt r1 r2) s -> Matches r1 s \/ Matches r2 s.
Proof. inversion 1; subst; auto. Qed.

Lemma Matches_Eps_inv s : Matches Eps s -> s = [].
Proof. now inversion 1. Qed.

Lemma nullable_spec r : nullable r = true <-> Matches r [].
Proof.
  induction r; simpl; split; intros H;
    try discriminate; try (now inversion H); try reflexivity.
  - constructor.
  - apply andb_true_iff in H as [H1 H2].
    change (@nil ascii) with (@nil ascii ++ []).
    constructor; [now apply IHr1 | now apply IHr2].
  - apply Matches_Cat_inv in H as (s1 & s2 & E & M1 & M2).
    symmetry in E. apply app_eq_nil in E as [-> ->].
    apply andb_true_iff. split; [now apply IHr1 | now apply IHr2].
  - apply orb_true_iff in H as [H|H]; [apply MAltL; now apply IHr1 | apply MAltR; now apply IHr2].
  - apply orb_true_iff. apply Matches_Alt_inv in H as [H|H]; [left; now apply IHr1 | right; now apply IHr2].
  - constructor.
Qed.

Lemma deriv_sound c r : forall s, Matches (deriv c r) s -> Matches r (c :: s).
Proof.
  induction r; simpl; intros s H; try now inversion H.
  - destruct (ascii_eqb c a) eqn:E; inversion H; subst.
    apply ascii_eqb_eq in E. subst. constructor.
  - destruct (is_digit c) eqn:E; inversion H; subst. now constructor.
  - inversion H; subst. constructor.
  - destruct (nullable r1) eqn:N.
    + apply Matches_Alt_inv in H as [M|M].
      * apply Matches_Cat_inv in M as (s1 & s2 & -> & M1 & M2).
        change (c :: s1 ++ s2) with ((c :: s1) ++ s2). constructor; auto.
      * change (c :: s) with ([] ++ c :: s). constructor; [now apply nullable_spec | auto].
    + apply Matches_Cat_inv in H as (s1 & s2 & -> & M1 & M2).
      change (c :: s1 ++ s2) with ((c :: s1) ++ s2). constructor; auto.
  - apply Matches_Alt_inv in H as [M|M]; [apply MAltL | apply MAltR]; auto.
  - apply Matches_Cat_inv in H as (s1 & s2 & -> & M1 & M2).
    constructor; auto.
Qed.

Lemma deriv_complete r t :
  Matches r t -> forall c s, t = c :: s -> Matches (deriv c r) s.
Proof.
  induction 1 as [|d|d Hd|d|r1 r2 s1 s2 M1 IH1 M2 IH2|r1 r2 s0 M IH|r1 r2 s0 M IH
                  | |r d s1 s2 M1 IH1 M2 IH2];
    intros c s E; simpl; try discriminate.
  - inversion E; subst. rewrite ascii_eqb_refl. constructor.
  - inversion E; subst. rewrite Hd. constructor.
  - inversion E; subst. constructor.
  - destruct s1 as [|x s1]; simpl in E.
    + subst. apply nullable_spec in M1. rewrite M1. apply MAltR. now apply IH2.
    + inversion E; subst.
      destruct (nullable r1); [apply MAltL|]; constructor; auto.
  - apply MAltL. auto.
  - apply MAltR. auto.
  - inversion E; subst. constructor; auto.
Qed.

Lemma deriv_spec c r s : Matches (deriv c r) s <-> Matches r (c :: s).
Proof.
  split; [apply deriv_sound | intros H; now apply (deriv_complete H)].
Qed.

Lemma matches_spec s : forall r, matches r s = true <-> Matches r s.
Proof.
  induction s as [|c s IH]; intros r; simpl.
  - apply nullable_spec.
  - rewrite IH. apply deriv_spec.
Qed.

Lemma Matches_lit p s : Matches (lit p) s <-> s = p.
Proof.
  revert s. induction p as [|c p IH]; intros s; simpl; split; intros H.
  - now inversion H.
  - subst. constructor.
  - apply Matches_Cat_inv in H as (s1 & s2 & -> & M1 & M2).
    inversion M1; subst. simpl. f_equal. now apply IH.
  - subst. change (c :: p) with ([c] ++ p). constructor; [constructor | now apply IH].
Qed.

Lemma Matches_star_any s : Matches (Star Any) s.
Proof.
  induction s as [|c s IH]; [constructor|].
  change (c :: s) with (c :: [] ++ s). constructor; [constructor | assumption].
Qed.

Lemma Matches_star_digit s : Matches (Star Digit) s <-> forallb is_digit s = true.
Proof.
  split.
  - remember (Star Digit) as r eqn:E.
    induction 1 as [| | | | | | | |r d s1 s2 M1 IH1 M2 IH2]; try discriminate; [reflexivity|].
    inversion E; subst. inversion M1; subst. simpl.
    apply andb_true_iff. split; [assumption | now apply IH2].
  - induction s as [|c s IH]; simpl; intros H; [constructor|].
    apply andb_true_iff in H as [H1 H2].
    change (c :: s) with (c :: [] ++ s). constructor; [now constructor | auto].
Qed.

Lemma Matches_plus_digit s : Matches (plus Digit) s <-> all_digits s = true.
Proof.
  unfold plus, all_digits. split.
  - intros H. apply Matches_Cat_inv in H as (s1 & s2 & -> & M1 & M2).
    inversion M1; subst. apply Matches_star_digit in M2. simpl.
    apply andb_true_iff. auto.
  - destruct s as [|c s]; simpl; [discriminate|]. intros H.
    apply andb_true_iff in H as [H1 H2].
    change (c :: s) with ([c] ++ s). constructor; [now constructor | now apply Matches_star_digit].
Qed.

Lemma Matches_artifact suffix s :
  Matches (Cat (lit (js "immich-db-backup-")) (Cat (plus Digit) (lit suffix))) s <->
  exists d, all_digits d = true /\ s = js "immich-db-backup-" ++ d ++ suffix.
Proof.
  split.
  - intros H. apply Matches_Cat_inv in H as (s1 & s2 & -> & M1 & M2).
    apply Matches_Cat_inv in M2 as (s3 & s4 & -> & M3 & M4).
    apply Matches_lit in M1, M4. apply Matches_plus_digit in M3. subst.
    now exists s3.
  - intros (d & Hd & ->).
    constructor; [now apply Matches_lit|].
    constructor; [now apply Matches_plus_digit | now apply Matches_lit].
Qed.

Lemma search_to_end_spec r s :
  search_to_end r s = true <-> exists pre rest, s = pre ++ rest /\ Matches r rest.
Proof.
  unfold search_to_end. rewrite matches_spec. split.
  - intros H. apply Matches_Cat_inv in H as (s1 & s2 & -> & M1 & M2). now exists s1, s2.
  - intros (pre & rest & -> & M). constructor; [apply Matches_star_any | assumption].
Qed.

Lemma well_formed_final_spec f :
  well_formed_final f = true <-> exists d, all_digits d = true /\ f = final_name d.
Proof. unfold well_formed_final. rewrite matches_spec. apply Matches_artifact. Qed.

Lemma well_formed_tmp_spec f :
  well_formed_tmp f = true <-> exists d, all_digits d = true /\ f = tmp_name d.
Proof. unfold well_formed_tmp. rewrite matches_spec. apply Matches_artifact. Qed.

Lemma well_formed_final_search f :
  well_formed_final f = true -> search_to_end re_backup f = true.
Proof.
  unfold well_formed_final. rewrite matches_spec, search_to_end_spec.
  intros H. now exists [], f.
Qed.

Lemma well_formed_tmp_search f :
  well_formed_tmp f = true -> search_to_end re_failed f = true.
Proof.
  unfold well_formed_tmp. rewrite matches_spec, search_to_end_spec.
  intros H. now exists [], f.
Qed.

(** ** Sorting *)

Section SortFacts.
Variable A : Type.
Variable leb : A -> A -> bool.

Let le (a b : A) : Prop := leb a b = true.

Lemma insert_sorted_perm x l : Permutation (x :: l) (insert_sorted leb x l).
Proof.
  induction l as [|y l IH]; simpl; [reflexivity|].
  destruct (leb x y); [reflexivity|].
  rewrite perm_swap. now constructor.
Qed.

Lemma sort_by_perm l : Permutation l (sort_by leb l).
Proof.
  induction l as [|x l IH]; simpl; [constructor|].
  rewrite <- insert_sorted_perm. now constructor.
Qed.

Lemma sort_by_In x l : In x (sort_by leb l) <-> In x l.
Proof.
  split; apply Permutation_in; [symmetry|]; apply sort_by_perm.
Qed.

Lemma sort_by_length l : List.length (sort_by leb l) = List.length l.
Proof. symmetry. apply Permutation_length, sort_by_perm. Qed.

Hypothesis leb_total : forall a b, leb a b = true \/ leb b a = true.
Hypothesis leb_trans : forall a b c, leb a b = true -> leb b c = true -> leb a c = true.

Lemma insert_sorted_sorted x l :
  StronglySorted le l -> StronglySorted le (insert_sorted leb x l).
Proof.
  induction 1 as [|y l S IH F]; simpl.
  - repeat constructor.
  - destruct (leb x y) eqn:E.
    + constructor; [now constructor|].
      constructor; [exact E|].
      eapply Forall_impl; [|exact F]. intros z Hz. eapply leb_trans; eassumption.
    + constructor; [assumption|].
      assert (Hyx : le y x) by (destruct (leb_total x y); [congruence | assumption]).
      eapply Permutation_Forall; [apply insert_sorted_perm|].
      now constructor.
Qed.

Lemma sort_by_sorted l : StronglySorted le (sort_by leb l).
Proof.
  induction l as [|x l IH]; simpl; [constructor | now apply insert_sorted_sorted].
Qed.
End SortFacts.

Lemma insert_sorted_ext (A : Type) (leb leb' : A -> A -> bool) x l :
  (forall b, In b l -> leb x b = leb' x b) ->
  insert_sorted leb x l = insert_sorted leb' x l.
Proof.
  induction l as [|y l IH]; simpl; intros H; [reflexivity|].
  rewrite <- (H y) by now left.
  destruct (leb x y); [reflexivity|]. f_equal. apply IH. intros b Hb. apply H. now right.
Qed.

Lemma sort_by_ext (A : Type) (leb leb' : A -> A -> bool) l :
  (forall a b, In a l -> In b l -> leb a b = leb' a b) ->
  sort_by leb l = sort_by leb' l.
Proof.
  induction l as [|x l IH]; simpl; intros H; [reflexivity|].
  rewrite IH by (intros; apply H; now right).
  apply insert_sorted_ext. intros b Hb. apply H; [now left|].
  right. now apply sort_by_In in Hb.
Qed.

Lemma StronglySorted_snoc (A : Type) (R : A -> A -> Prop) l x :
  StronglySorted R l -> Forall (fun y => R y x) l -> StronglySorted R (l ++ [x]).
Proof.
  induction 1 as [|y l S IH F]; simpl; intros H.
  - repeat constructor.
  - inversion H; subst. constructor; [now apply IH|].
    apply Forall_app. split; [assumption | now repeat constructor].
Qed.

Lemma StronglySorted_rev (A : Type) (R : A -> A -> Prop) l :
  StronglySorted R l -> StronglySorted (fun a b => R b a) (rev l).
Proof.
  induction 1 as [|y l S IH F]; simpl; [constructor|].
  apply StronglySorted_snoc; [assumption|].
  apply Forall_rev. assumption.
Qed.

Lemma StronglySorted_app_inv (A : Type) (R : A -> A -> Prop) l1 l2 :
  StronglySorted R (l1 ++ l2) -> forall a b, In a l1 -> In b l2 -> R a b.
Proof.
  induction l1 as [|x l1 IH]; simpl; intros S a b Ha Hb; [contradiction|].
  inversion S as [|? ? S' F]; subst. destruct Ha as [->|Ha].
  - rewrite Forall_forall in F. apply F. apply in_or_app. now right.
  - now apply IH.
Qed.

Lemma sort_sorted l : StronglySorted (fun a b => str_leb a b = true) (sort l).
Proof. apply sort_by_sorted; [apply str_leb_total | apply str_leb_trans]. Qed.

(** [backups] lists the names newest-name-first. *)
Lemma backups_sorted files :
  StronglySorted (fun a b => str_leb b a = true) (backups files).
Proof. unfold backups, reverse. apply StronglySorted_rev, sort_sorted. Qed.

Lemma backups_perm files :
  Permutation (filter (search_to_end re_backup) files) (backups files).
Proof.
  unfold backups, reverse, sort. rewrite <- Permutation_rev. apply sort_by_perm.
Qed.

Lemma slice_skipn (k : Z) l :
  (0 <= k)%Z -> slice k l = skipn (Z.to_nat k) l.
Proof.
  intros Hk. unfold slice.
  destruct (Z.ltb_spec k 0); [lia|].
  destruct (Z.le_gt_cases k (Z.of_nat (List.length l))).
  - now rewrite Z.min_l.
  - rewrite Z.min_r by lia. rewrite Nat2Z.id.
    rewrite !skipn_all2; [reflexivity | lia | lia].
Qed.

(** ** The storage model *)

Lemma strip_prefix_spec p s r : strip_prefix p s = Some r <-> s = p ++ r.
Proof.
  revert s. induction p as [|x p IH]; intros s; simpl.
  - split; congruence.
  - destruct s as [|y s]; [split; discriminate|].
    destruct (ascii_eqb x y) eqn:E.
    + apply ascii_eqb_eq in E. subst. rewrite IH. split; [now intros -> | now inversion 1].
    + split; [discriminate|]. inversion 1; subst. now rewrite ascii_eqb_refl in E.
Qed.

Lemma path_join_app dir n : path_join dir n = (dir ++ ["/"%char]) ++ n.
Proof. unfold path_join. now rewrite <- app_assoc. Qed.

Lemma path_join_inj dir a b : path_join dir a = path_join dir b -> a = b.
Proof. rewrite !path_join_app. apply app_inv_head. Qed.

Lemma In_entry_of dir p n :
  In n (entry_of dir p) <-> p = path_join dir n /\ is_file_name n = true.
Proof.
  unfold entry_of. rewrite path_join_app.
  destruct (strip_prefix (dir ++ ["/"%char]) p) as [m|] eqn:E.
  - apply strip_prefix_spec in E. subst p.
    destruct (is_file_name m) eqn:F; simpl.
    + split; [intros [->|[]]; auto | intros [H _]; apply app_inv_head in H; auto].
    + split; [contradiction | intros [H F']; apply app_inv_head in H; congruence].
  - simpl. split; [contradiction|]. intros [H _].
    apply strip_prefix_spec in H. congruence.
Qed.

Lemma In_readdir dir fs0 n :
  In n (readdir dir fs0) <-> In (path_join dir n) fs0 /\ is_file_name n = true.
Proof.
  unfold readdir. rewrite in_flat_map. split.
  - intros (p & Hp & Hn). apply In_entry_of in Hn as [-> F]. auto.
  - intros [Hp F]. exists (path_join dir n). split; [assumption|]. now apply In_entry_of.
Qed.

Lemma entry_of_cases dir p :
  entry_of dir p = [] \/ exists n, entry_of dir p = [n] /\ p = path_join dir n.
Proof.
  unfold entry_of.
  destruct (strip_prefix (dir ++ ["/"%char]) p) as [m|] eqn:E; [|now left].
  destruct (is_file_name m); [|now left].
  right. exists m. split; [reflexivity|].
  apply strip_prefix_spec in E. now rewrite path_join_app.
Qed.

Lemma readdir_NoDup dir fs0 : NoDup fs0 -> NoDup (readdir dir fs0).
Proof.
  induction 1 as [|p l Hp ND IH]; simpl; [constructor|].
  destruct (entry_of_cases dir p) as [->|(n & -> & ->)]; simpl; [assumption|].
  constructor; [|assumption]. intros H. apply In_readdir in H. tauto.
Qed.

Lemma mem_path_join dir n del :
  mem (path_join dir n) (map (path_join dir) del) = mem n del.
Proof.
  destruct (mem n del) eqn:E.
  - apply mem_In. apply mem_In in E. now apply in_map.
  - apply mem_not_In. apply mem_not_In in E. intros H.
    apply in_map_iff in H as (m & Hm & Hin). apply path_join_inj in Hm. now subst.
Qed.

(** Deleting entries of the folder removes them from its listing and
    nothing else. *)
Lemma readdir_filter dir del fs0 :
  readdir dir (filter (fun q => negb (mem q (map (path_join dir) del))) fs0) =
  filter (fun n => negb (mem n del)) (readdir dir fs0).
Proof.
  induction fs0 as [|p l IH]; simpl; [reflexivity|].
  destruct (entry_of_cases dir p) as [E|(n & E & ->)].
  - rewrite E. simpl.
    destruct (negb (mem p (map (path_join dir) del))); simpl; [rewrite E|]; exact IH.
  - rewrite E. simpl. rewrite mem_path_join.
    destruct (negb (mem n del)); simpl; [rewrite E; simpl|]; now rewrite IH.
Qed.

Lemma str_eqb_sym a b : str_eqb a b = str_eqb b a.
Proof.
  destruct (str_eqb a b) eqn:E; symmetry.
  - apply str_eqb_eq in E. subst. apply str_eqb_refl.
  - apply str_eqb_neq. apply str_eqb_neq in E. congruence.
Qed.

Lemma filter_filter (A : Type) (f g : A -> bool) l :
  filter f (filter g l) = filter (fun x => g x && f x) l.
Proof.
  induction l as [|x l IH]; simpl; [reflexivity|].
  destruct (g x); simpl; [destruct (f x)|]; now rewrite IH.
Qed.

Lemma mem_cons x y l : mem x (y :: l) = str_eqb x y || mem x l.
Proof. reflexivity. Qed.

Lemma remove_path_filter dir f del fs0 :
  filter (fun q => negb (mem q (map (path_join dir) del))) (remove_path (path_join dir f) fs0) =
  filter (fun q => negb (mem q (map (path_join dir) (f :: del)))) fs0.
Proof.
  unfold remove_path. rewrite filter_filter. apply filter_ext. intros q.
  rewrite map_cons, mem_cons, negb_orb. now rewrite (str_eqb_sym q).
Qed.

(** ** The deletion loop *)

Lemma In_without E files fs0 p :
  In p (without E files fs0) <->
  In p fs0 /\ ~ In p (map (path_join (backupsFolder E)) files).
Proof.
  unfold without. rewrite filter_In, negb_true_iff, mem_not_In. tauto.
Qed.

Lemma without_nil E fs0 : without E [] fs0 = fs0.
Proof.
  unfold without. simpl. induction fs0 as [|p l IH]; simpl; [reflexivity | now rewrite IH].
Qed.

(** When every candidate exists and can be deleted, the loop deletes them
    all, in order. *)
Lemma unlink_each_ok E : forall del w,
  NoDup del ->
  (forall f, In f del -> In (path_join (backupsFolder E) f) (fs w)) ->
  (forall f, In f del -> unlink_denied E (path_join (backupsFolder E) f) = false) ->
  unlink_each E del w =
  ({| fs := without E del (fs w); logs := logs w;
      calls := calls w ++ unlink_calls E del |}, true).
Proof.
  induction del as [|f del IH]; intros w ND Hin Hok; simpl.
  - rewrite without_nil, app_nil_r. now destruct w.
  - unfold unlink. simpl. rewrite (Hok f) by now left.
    assert (M : mem (path_join (backupsFolder E) f) (fs w) = true)
      by (apply mem_In, Hin; now left).
    rewrite M. inversion ND as [|? ? Hf ND']; subst.
    rewrite IH; simpl.
    + unfold without. rewrite remove_path_filter, <- app_assoc. reflexivity.
    + assumption.
    + intros g Hg. unfold remove_path. apply filter_In. split; [apply Hin; now right|].
      apply negb_true_iff, str_eqb_neq. intros Eq. apply path_join_inj in Eq. now subst.
    + intros g Hg. apply Hok. now right.
Qed.

Lemma unlink_each_app E : forall pre rest w,
  unlink_each E (pre ++ rest) w =
  match unlink_each E pre w with
  | (w', true) => unlink_each E rest w'
  | r => r
  end.
Proof.
  induction pre as [|f pre IH]; intros rest w; simpl; [reflexivity|].
  destruct (unlink (unlink_denied E) (path_join (backupsFolder E) f) (fs w)); [apply IH | reflexivity].
Qed.

(** The first candidate whose deletion is denied ends the loop: the ones
    before it are gone, the ones after it were never asked for. *)
Lemma unlink_each_denied E pre f post w :
  NoDup pre ->
  (forall g, In g pre -> In (path_join (backupsFolder E) g) (fs w)) ->
  (forall g, In g pre -> unlink_denied E (path_join (backupsFolder E) g) = false) ->
  unlink_denied E (path_join (backupsFolder E) f) = true ->
  unlink_each E (pre ++ f :: post) w =
  ({| fs := without E pre (fs w); logs := logs w;
      calls := calls w ++ unlink_calls E (pre ++ [f]) |}, false).
Proof.
  intros ND Hin Hok Hden. rewrite unlink_each_app, unlink_each_ok by assumption.
  simpl. unfold unlink. rewrite Hden. unfold call, unlink_calls. simpl.
  now rewrite map_app, app_assoc.
Qed.

(** ** The candidates of a sweep *)

Lemma artifact_kinds_disjoint f :
  search_to_end re_backup f = true -> search_to_end re_failed f = true -> False.
Proof.
  rewrite !search_to_end_spec.
  intros (p1 & r1 & E1 & M1) (p2 & r2 & E2 & M2).
  apply Matches_artifact in M1 as (d1 & _ & ->), M2 as (d2 & _ & ->).
  rewrite E2 in E1. apply (f_equal (@rev ascii)) in E1.
  rewrite !rev_app_distr in E1. simpl in E1. discriminate.
Qed.

Lemma In_backups files f :
  In f (backups files) <-> In f files /\ search_to_end re_backup f = true.
Proof.
  rewrite <- filter_In. split; apply Permutation_in; [symmetry|]; apply backups_perm.
Qed.

Lemma In_skipn_orig (A : Type) n (l : list A) x : In x (skipn n l) -> In x l.
Proof.
  intros H. rewrite <- (firstn_skipn n l). apply in_or_app. now right.
Qed.

Lemma In_slice k l f : In f (slice k l) -> In f l.
Proof. unfold slice. apply In_skipn_orig. Qed.

Lemma NoDup_skipn_orig (A : Type) n (l : list A) : NoDup l -> NoDup (skipn n l).
Proof.
  intros H. rewrite <- (firstn_skipn n l) in H. now apply NoDup_app_remove_l in H.
Qed.

Lemma toDelete_incl k files f : In f (toDelete k files) -> In f files.
Proof.
  unfold toDelete, failedBackups. rewrite in_app_iff, filter_In.
  intros [H|[H _]]; [|assumption]. apply In_slice, In_backups in H. tauto.
Qed.

Lemma toDelete_NoDup k files : NoDup files -> NoDup (toDelete k files).
Proof.
  intros ND. unfold toDelete. apply NoDup_app.
  - unfold slice. apply NoDup_skipn_orig.
    eapply Permutation_NoDup; [apply backups_perm|]. now apply NoDup_filter.
  - now apply NoDup_filter.
  - intros f H1 H2. apply In_slice, In_backups in H1 as [_ H1].
    apply filter_In in H2 as [_ H2]. exact (artifact_kinds_disjoint _ H1 H2).
Qed.

(** ** Names and the numbers in them *)

Lemma str_ltb_app p a b : str_ltb (p ++ a) (p ++ b) = str_ltb a b.
Proof.
  induction p as [|c p IH]; simpl; [reflexivity|].
  now rewrite N.ltb_irrefl, N.eqb_refl.
Qed.

Lemma digits_value_acc d : forall acc,
  fold_left (fun acc c => (10 * acc + (code_unit c - 48))%N) d acc =
  (acc * 10 ^ N.of_nat (List.length d) + digits_value d)%N.
Proof.
  unfold digits_value. induction d as [|c d IH]; intros acc.
  - simpl. lia.
  - cbn [fold_left List.length]. rewrite IH, (IH (10 * 0 + _)%N).
    rewrite Nat2N.inj_succ, N.pow_succ_r'. lia.
Qed.

Lemma digits_value_cons c d :
  digits_value (c :: d) =
  ((code_unit c - 48) * 10 ^ N.of_nat (List.length d) + digits_value d)%N.
Proof.
  unfold digits_value at 1. cbn [fold_left]. rewrite digits_value_acc. reflexivity.
Qed.

Lemma is_digit_range c : is_digit c = true -> (48 <= code_unit c <= 57)%N.
Proof.
  unfold is_digit. rewrite andb_true_iff, !N.leb_le. tauto.
Qed.

Lemma digits_value_bound d :
  forallb is_digit d = true -> (digits_value d < 10 ^ N.of_nat (List.length d))%N.
Proof.
  induction d as [|c d IH]; intros H.
  - cbn. lia.
  - cbn [forallb] in H. apply andb_true_iff in H as [Hc Hd].
    apply is_digit_range in Hc. specialize (IH Hd).
    rewrite digits_value_cons. cbn [List.length]. rewrite Nat2N.inj_succ, N.pow_succ_r'.
    nia.
Qed.

(** Digit strings of one length compare as the numbers they write,
    whatever text follows them. *)
Lemma digits_ltb_value rest : forall a b,
  forallb is_digit a = true -> forallb is_digit b = true ->
  List.length a = List.length b ->
  str_ltb (a ++ rest) (b ++ rest) = N.ltb (digits_value a) (digits_value b).
Proof.
  induction a as [|x a IH]; intros [|y b] Ha Hb L; try discriminate.
  - simpl. rewrite str_ltb_irrefl. reflexivity.
  - cbn [forallb] in Ha, Hb.
    apply andb_true_iff in Ha as [Hx Ha], Hb as [Hy Hb].
    injection L as L. cbn [app str_ltb]. rewrite !digits_value_cons, <- L.
    pose proof (digits_value_bound _ Ha) as Ba.
    pose proof (digits_value_bound _ Hb) as Bb. rewrite <- L in Bb.
    apply is_digit_range in Hx, Hy.
    set (T := (10 ^ N.of_nat (List.length a))%N) in *.
    destruct (N.ltb_spec (code_unit x) (code_unit y)) as [Hlt|Hge].
    + symmetry. apply N.ltb_lt. nia.
    + destruct (N.eqb_spec (code_unit x) (code_unit y)) as [Heq|Hne].
      * rewrite (IH b Ha Hb L), Heq.
        destruct (N.ltb_spec (digits_value a) (digits_value b));
          symmetry; [apply N.ltb_lt | apply N.ltb_ge]; nia.
      * symmetry. apply N.ltb_ge. nia.
Qed.

Lemma leading_digits_app d rest :
  forallb is_digit d = true ->
  match rest with [] => True | c :: _ => is_digit c = false end ->
  leading_digits (d ++ rest) = d.
Proof.
  induction d as [|x d IH]; simpl; intros Hd Hr.
  - destruct rest as [|c rest]; [reflexivity|]. simpl. now rewrite Hr.
  - apply andb_true_iff in Hd as [Hx Hd]. rewrite Hx. f_equal. now apply IH.
Qed.

Lemma all_digits_forallb d : all_digits d = true -> forallb is_digit d = true.
Proof. unfold all_digits. rewrite andb_true_iff. tauto. Qed.

Lemma stamp_final d : all_digits d = true -> stamp (final_name d) = d.
Proof.
  intros H. unfold stamp, final_name.
  change (skipn _ (js "immich-db-backup-" ++ d ++ js ".sql.gz")) with (d ++ js ".sql.gz").
  apply leading_digits_app; [now apply all_digits_forallb | reflexivity].
Qed.

Lemma stamp_tmp d : all_digits d = true -> stamp (tmp_name d) = d.
Proof.
  intros H. unfold stamp, tmp_name.
  change (skipn _ (js "immich-db-backup-" ++ d ++ js ".sql.gz.tmp")) with (d ++ js ".sql.gz.tmp").
  apply leading_digits_app; [now apply all_digits_forallb | reflexivity].
Qed.

Lemma final_of_width_spec width f :
  final_of_width width f = true <->
  exists d, all_digits d = true /\ List.length d = width /\ f = final_name d.
Proof.
  unfold final_of_width. rewrite andb_true_iff, well_formed_final_spec, Nat.eqb_eq. split.
  - intros [(d & Hd & ->) L]. rewrite stamp_final in L by assumption. eauto.
  - intros (d & Hd & L & ->). rewrite stamp_final by assumption. eauto.
Qed.

(** For final names with timestamps of one width, the order of the names is
    the order of the timestamps. *)
Lemma final_names_order width a b :
  final_of_width width a = true -> final_of_width width b = true ->
  str_leb a b = N.leb (timestamp a) (timestamp b).
Proof.
  intros Ha Hb.
  apply final_of_width_spec in Ha as (da & Da & La & ->).
  apply final_of_width_spec in Hb as (db & Db & Lb & ->).
  unfold timestamp, str_leb. rewrite !stamp_final by assumption.
  unfold final_name. rewrite str_ltb_app.
  rewrite digits_ltb_value; try (now apply all_digits_forallb); try congruence.
  rewrite N.leb_antisym. reflexivity.
Qed.

Lemma tmp_of_width_spec width f :
  tmp_of_width width f = true <->
  exists d, all_digits d = true /\ List.length d = width /\ f = tmp_name d.
Proof.
  unfold tmp_of_width. rewrite andb_true_iff, well_formed_tmp_spec, Nat.eqb_eq. split.
  - intros [(d & Hd & ->) L]. rewrite stamp_tmp in L by assumption. eauto.
  - intros (d & Hd & L & ->). rewrite stamp_tmp by assumption. eauto.
Qed.

Lemma tmp_names_order width a b :
  tmp_of_width width a = true -> tmp_of_width width b = true ->
  str_leb a b = N.leb (timestamp a) (timestamp b).
Proof.
  intros Ha Hb.
  apply tmp_of_width_spec in Ha as (da & Da & La & ->).
  apply tmp_of_width_spec in Hb as (db & Db & Lb & ->).
  unfold timestamp, str_leb. rewrite !stamp_tmp by assumption.
  unfold tmp_name. rewrite str_ltb_app.
  rewrite digits_ltb_value; try (now apply all_digits_forallb); try congruence.
  rewrite N.leb_antisym. reflexivity.
Qed.


(** ** cleanupDatabaseBackups *)

Lemma distinct_NoDup l : distinct l = true <-> NoDup l.
Proof.
  induction l as [|x l IH]; simpl.
  - split; [constructor | reflexivity].
  - rewrite andb_true_iff, negb_true_iff, mem_not_In, IH. split.
    + intros [H1 H2]. now constructor.
    + inversion 1. auto.
Qed.

Lemma deletable_spec E w :
  deletable E w = true <->
  forall f, In f (candidates E w) ->
            unlink_denied E (path_join (backupsFolder E) f) = false.
Proof.
  unfold deletable. rewrite forallb_forall.
  split; intros H f Hf; specialize (H f Hf); now destruct (unlink_denied E _).
Qed.

Lemma candidates_listed E w f :
  In f (candidates E w) -> In (path_join (backupsFolder E) f) (fs w).
Proof.
  intros H. apply toDelete_incl, In_readdir in H. tauto.
Qed.

Lemma candidates_NoDup E w : NoDup (fs w) -> NoDup (candidates E w).
Proof. intros H. now apply toDelete_NoDup, readdir_NoDup. Qed.

(** A sweep none of whose deletions fails: what is left, logged and called. *)
Lemma cleanup_ok E w :
  distinct (fs w) = true -> deletable E w = true ->
  cleanupDatabaseBackups E w =
  ({| fs := without E (candidates E w) (fs w);
      logs := logs w ++ [cleanup_started; cleanup_finished (List.length (candidates E w))];
      calls := calls w ++ CReaddir (backupsFolder E) :: unlink_calls E (candidates E w) |},
   true).
Proof.
  intros D Hok. apply distinct_NoDup in D. rewrite deletable_spec in Hok.
  unfold cleanupDatabaseBackups. cbn [fs log call logs calls].
  fold (candidates E w).
  rewrite unlink_each_ok; cbn [fs logs calls].
  - unfold log, call, cleanup_started, cleanup_finished. cbn [fs logs calls].
    rewrite <- !app_assoc. reflexivity.
  - now apply candidates_NoDup.
  - apply candidates_listed.
  - exact Hok.
Qed.

Lemma In_failedBackups files f :
  In f (failedBackups files) <-> In f files /\ search_to_end re_failed f = true.
Proof. unfold failedBackups. apply filter_In. Qed.

(** C4, amended: a sweep none of whose deletions is denied deletes every
    well-formed temporary artifact of the backup folder, whatever the
    keep-count (even a negative one) and whatever the timestamps: the sweep
    completes, and each entry of the folder named
    [immich-db-backup-<digits>.sql.gz.tmp] was unlinked and is gone after
    it. The file system lists each path once. *)
Theorem sweep_deletes_every_temporary E w :
  distinct (fs w) = true -> deletable E w = true ->
  exists w', cleanupDatabaseBackups E w = (w', true) /\
    forall d, all_digits d = true ->
      In (tmp_name d) (readdir (backupsFolder E) (fs w)) ->
      In (CUnlink (path_join (backupsFolder E) (tmp_name d))) (calls w') /\
      ~ In (path_join (backupsFolder E) (tmp_name d)) (fs w') /\
      ~ In (tmp_name d) (readdir (backupsFolder E) (fs w')).
Proof.
  intros D Hok. eexists. split; [now apply cleanup_ok|].
  intros d Hd Hf. cbn [fs calls].
  assert (S : search_to_end re_failed (tmp_name d) = true).
  { apply search_to_end_spec. exists [], (tmp_name d). split; [reflexivity|].
    apply Matches_artifact. now exists d. }
  assert (C : In (tmp_name d) (candidates E w)).
  { unfold candidates, toDelete. apply in_or_app. right.
    apply In_failedBackups. split; assumption. }
  assert (G : ~ In (path_join (backupsFolder E) (tmp_name d))
                   (without E (candidates E w) (fs w))).
  { rewrite In_without. intros [_ H]. apply H. now apply in_map. }
  repeat split.
  - apply in_or_app. right. right. unfold unlink_calls.
    apply (in_map (fun f => CUnlink (path_join (backupsFolder E) f))). exact C.
  - exact G.
  - rewrite In_readdir. tauto.
Qed.

Lemma sweep_deletes_every_temporary_witness :
  exists w', cleanupDatabaseBackups example_env example_world = (w', true) /\
    forall d, all_digits d = true ->
      In (tmp_name d) (readdir (backupsFolder example_env) (fs example_world)) ->
      In (CUnlink (path_join (backupsFolder example_env) (tmp_name d))) (calls w') /\
      ~ In (path_join (backupsFolder example_env) (tmp_name d)) (fs w') /\
      ~ In (tmp_name d) (readdir (backupsFolder example_env) (fs w')).
Proof.
  apply (@sweep_deletes_every_temporary example_env example_world); reflexivity.
Defined.

(** C4 as stated fails: the folder holds the backups 100, 200 and 300 and
    the temporary 400, the keep-count is 2, and the file system refuses to
    delete 100. The loop ends at that first candidate: no unlink is asked
    for the temporary, which is still in the folder after the sweep. *)
Lemma sweep_deletes_every_temporary_counterexample :
  all_digits (js "400") = true /\
  In (tmp_name (js "400")) (readdir (backupsFolder guarded_env) (fs example_world)) /\
  candidates guarded_env example_world =
    [js "immich-db-backup-100.sql.gz"; js "immich-db-backup-400.sql.gz.tmp"] /\
  cleanupDatabaseBackups guarded_env example_world =
  ({| fs := [js "upload/backups/immich-db-backup-100.sql.gz";
             js "upload/backups/immich-db-backup-200.sql.gz";
             js "upload/backups/immich-db-backup-300.sql.gz";
             js "upload/backups/immich-db-backup-400.sql.gz.tmp"];
      logs := [cleanup_started];
      calls := [CReaddir (js "upload/backups");
                CUnlink (js "upload/backups/immich-db-backup-100.sql.gz")] |},
   false) /\
  In (path_join (backupsFolder guarded_env) (tmp_name (js "400")))
     (fs (fst (cleanupDatabaseBackups guarded_env example_world))).
Proof.
  repeat split; try reflexivity; vm_compute; tauto.
Qed.








Lemma NoDup_firstn_skipn (A : Type) n (l : list A) x :
  NoDup l -> In x (firstn n l) -> In x (skipn n l) -> False.
Proof.
  intros ND H1 H2. rewrite <- (firstn_skipn n l) in ND.
  revert H1 H2 ND. generalize (firstn n l) (skipn n l). intros l1 l2.
  induction l1 as [|y l1 IH]; simpl; [contradiction|].
  intros [->|H1] H2 ND; inversion ND; subst.
  - match goal with H : ~ In _ _ |- _ => apply H end. apply in_or_app. now right.
  - now apply IH.
Qed.




(** The scenario of the design document: of 100, 200, 300 and the temporary
    400, a sweep with keep-count 2 deletes 100 and the temporary, and
    reports 2 deletions. *)
Example sweep_scenario :
  cleanupDatabaseBackups example_env example_world =
  ({| fs := [js "upload/backups/immich-db-backup-200.sql.gz";
             js "upload/backups/immich-db-backup-300.sql.gz"];
      logs := [cleanup_started; cleanup_finished 2];
      calls := [CReaddir (js "upload/backups");
                CUnlink (js "upload/backups/immich-db-backup-100.sql.gz");
                CUnlink (js "upload/backups/immich-db-backup-400.sql.gz.tmp")] |},
   true).
Proof. reflexivity. Qed.


(** C7, amended: the sweep is not best-effort. When the deletion of one
    candidate is denied, the loop ends there: the candidates before it have
    been unlinked and are gone from the folder, the denied one and all
    candidates after it stay in the folder, no [unlink] is asked for the
    later ones, nothing is logged about the failure, and the rejection
    leaves [cleanupDatabaseBackups]. *)
Theorem sweep_stops_at_first_failure E w pre f post :
  distinct (fs w) = true ->
  candidates E w = pre ++ f :: post ->
  forallb (fun g => negb (unlink_denied E (path_join (backupsFolder E) g))) pre = true ->
  unlink_denied E (path_join (backupsFolder E) f) = true ->
  exists w', cleanupDatabaseBackups E w = (w', false) /\
    calls w' = calls w ++ CReaddir (backupsFolder E) :: unlink_calls E (pre ++ [f]) /\
    logs w' = logs w ++ [cleanup_started] /\
    fs w' = without E pre (fs w) /\
    (forall g, In g pre ->
       In (path_join (backupsFolder E) g) (fs w) /\
       ~ In (path_join (backupsFolder E) g) (fs w') /\
       ~ In g (readdir (backupsFolder E) (fs w'))) /\
    In (path_join (backupsFolder E) f) (fs w') /\
    forall g, In g post ->
      In (path_join (backupsFolder E) g) (fs w') /\
      ~ In (CUnlink (path_join (backupsFolder E) g)) (unlink_calls E (pre ++ [f])).
Proof.
  intros D C Hpre Hf. apply distinct_NoDup in D.
  pose proof (@candidates_NoDup E w D) as ND. rewrite C in ND.
  assert (Hin : forall g, In g (pre ++ f :: post) ->
                          In (path_join (backupsFolder E) g) (fs w)).
  { intros g Hg. apply candidates_listed. now rewrite C. }
  assert (Out : forall g, In g (f :: post) -> ~ In g pre).
  { intros g Hg Hp. revert ND Hg Hp. clear. induction pre as [|x pre IH]; simpl; [tauto|].
    intros ND Hg [->|Hp]; inversion ND; subst.
    - match goal with H : ~ In _ _ |- _ => apply H end. apply in_or_app. now right.
    - now apply IH. }
  assert (NDt : NoDup (f :: post)) by now apply NoDup_app_remove_l in ND.
  eexists. split.
  - unfold cleanupDatabaseBackups. cbn [fs log call logs calls].
    fold (candidates E w). rewrite C.
    rewrite unlink_each_denied; [reflexivity| | | |assumption].
    + now apply NoDup_app_remove_r in ND.
    + intros g Hg. cbn [fs]. apply Hin. apply in_or_app. now left.
    + intros g Hg. rewrite forallb_forall in Hpre. specialize (Hpre g Hg).
      now destruct (unlink_denied E _).
  - unfold call, log, cleanup_started. cbn [fs logs calls].
    assert (Stay : forall g, In g (f :: post) ->
                   In (path_join (backupsFolder E) g) (without E pre (fs w))).
    { intros g Hg. apply In_without. split; [apply Hin, in_or_app; now right|].
      intros H. apply in_map_iff in H as (x & Ex & Hx).
      apply path_join_inj in Ex. subst. exact (Out g Hg Hx). }
    assert (Gone : forall g, In g pre ->
                   ~ In (path_join (backupsFolder E) g) (without E pre (fs w))).
    { intros g Hg H. apply In_without in H as [_ H]. apply H. now apply in_map. }
    split; [now rewrite <- app_assoc|].
    split; [reflexivity|]. split; [reflexivity|]. split; [|split; [|split]].
    + intros g Hg. split; [apply Hin, in_or_app; now left|].
      split; [now apply Gone|]. rewrite In_readdir. intros [H _]. now apply (Gone g).
    + apply Stay. now left.
    + apply Stay. now right.
    + unfold unlink_calls. intros Hc. apply in_map_iff in Hc as (x & Ex & Hx).
      injection Ex as Ex. apply path_join_inj in Ex. subst x.
      apply in_app_or in Hx as [Hx|[->|[]]].
      * apply (Out g); [now right | assumption].
      * inversion NDt; subst. contradiction.
Qed.

Lemma sweep_stops_at_first_failure_witness :
  exists w', cleanupDatabaseBackups stubborn_second_env three_orphans_world = (w', false) /\
    calls w' = calls three_orphans_world ++ CReaddir (backupsFolder stubborn_second_env)
               :: unlink_calls stubborn_second_env
                    ([js "immich-db-backup-400.sql.gz.tmp"]
                     ++ [js "immich-db-backup-500.sql.gz.tmp"]) /\
    logs w' = logs three_orphans_world ++ [cleanup_started] /\
    fs w' = without stubborn_second_env [js "immich-db-backup-400.sql.gz.tmp"]
                    (fs three_orphans_world) /\
    (forall g, In g [js "immich-db-backup-400.sql.gz.tmp"] ->
       In (path_join (backupsFolder stubborn_second_env) g) (fs three_orphans_world) /\
       ~ In (path_join (backupsFolder stubborn_second_env) g) (fs w') /\
       ~ In g (readdir (backupsFolder stubborn_second_env) (fs w'))) /\
    In (path_join (backupsFolder stubborn_second_env) (js "immich-db-backup-500.sql.gz.tmp"))
       (fs w') /\
    forall g, In g [js "immich-db-backup-600.sql.gz.tmp"] ->
      In (path_join (backupsFolder stubborn_second_env) g) (fs w') /\
      ~ In (CUnlink (path_join (backupsFolder stubborn_second_env) g))
           (unlink_calls stubborn_second_env
              ([js "immich-db-backup-400.sql.gz.tmp"]
               ++ [js "immich-db-backup-500.sql.gz.tmp"])).
Proof.
  apply (@sweep_stops_at_first_failure stubborn_second_env three_orphans_world
           [js "immich-db-backup-400.sql.gz.tmp"]
           (js "immich-db-backup-500.sql.gz.tmp") [js "immich-db-backup-600.sql.gz.tmp"]);
    reflexivity.
Defined.

(** The sweep of the witness, evaluated: the first temporary is gone, the
    second and the third are still there. *)
Example sweep_stops_in_the_middle :
  cleanupDatabaseBackups stubborn_second_env three_orphans_world =
  ({| fs := [js "upload/backups/immich-db-backup-500.sql.gz.tmp";
             js "upload/backups/immich-db-backup-600.sql.gz.tmp"];
      logs := [cleanup_started];
      calls := [CReaddir (js "upload/backups");
                CUnlink (js "upload/backups/immich-db-backup-400.sql.gz.tmp");
                CUnlink (js "upload/backups/immich-db-backup-500.sql.gz.tmp")] |},
   false).
Proof. reflexivity. Qed.

(** C7 as stated fails: the first of two orphaned temporaries cannot be
    deleted, and the sweep never asks to delete the second one, which stays
    in the folder; the sweep logs nothing after its start. *)
Lemma sweep_best_effort_counterexample :
  candidates stubborn_env two_orphans_world =
    [js "immich-db-backup-400.sql.gz.tmp"; js "immich-db-backup-500.sql.gz.tmp"] /\
  cleanupDatabaseBackups stubborn_env two_orphans_world =
  ({| fs := [js "upload/backups/immich-db-backup-400.sql.gz.tmp";
             js "upload/backups/immich-db-backup-500.sql.gz.tmp"];
      logs := [cleanup_started];
      calls := [CReaddir (js "upload/backups");
                CUnlink (js "upload/backups/immich-db-backup-400.sql.gz.tmp")] |},
   false) /\
  ~ In (CUnlink (js "upload/backups/immich-db-backup-500.sql.gz.tmp"))
       (calls (fst (cleanupDatabaseBackups stubborn_env two_orphans_world))).
Proof.
  repeat split; try reflexivity.
  vm_compute. intros [H|[H|[]]]; discriminate H.
Qed.

(** C5 on a folder that holds files of somebody else: the names
    [archive-immich-db-backup-050.sql.gz] and
    [notes-on-immich-db-backup-1.sql.gz.tmp] are not well-formed artifact
    names, but the regexes of the sweep have no [^] and find a match inside
    them, so the sweep with keep-count 2 deletes both files. *)
Theorem sweep_deletes_foreign_files :
  well_formed (js "archive-immich-db-backup-050.sql.gz") = false /\
  well_formed (js "notes-on-immich-db-backup-1.sql.gz.tmp") = false /\
  search_to_end re_backup (js "archive-immich-db-backup-050.sql.gz") = true /\
  search_to_end re_failed (js "notes-on-immich-db-backup-1.sql.gz.tmp") = true /\
  cleanupDatabaseBackups example_env foreign_world =
  ({| fs := [js "upload/backups/immich-db-backup-100.sql.gz";
             js "upload/backups/immich-db-backup-200.sql.gz"];
      logs := [cleanup_started; cleanup_finished 2];
      calls := [CReaddir (js "upload/backups");
                CUnlink (js "upload/backups/archive-immich-db-backup-050.sql.gz");
                CUnlink (js "upload/backups/notes-on-immich-db-backup-1.sql.gz.tmp")] |},
   true).
Proof. repeat split; reflexivity. Qed.

(** What the sweep does leave alone: a path whose name neither regex finds a
    match in is still there after the sweep, however the sweep ends. *)
Lemma unlink_each_frame E : forall del w p,
  In p (fs w) -> ~ In p (map (path_join (backupsFolder E)) del) ->
  In p (fs (fst (unlink_each E del w))).
Proof.
  induction del as [|f del IH]; intros w p Hp Hn; simpl; [assumption|].
  unfold unlink. cbn [call fs].
  destruct (unlink_denied E _); [assumption|].
  destruct (mem _ (fs w)); [|assumption].
  apply IH; cbn [set_fs fs].
  - unfold remove_path. apply filter_In. split; [assumption|].
    apply negb_true_iff, str_eqb_neq. intros Eq. apply Hn. left. exact Eq.
  - intros H. apply Hn. now right.
Qed.

Lemma sweep_leaves_unmatched_names E w p :
  In p (fs w) ->
  (forall f, p = path_join (backupsFolder E) f ->
             search_to_end re_backup f = false /\ search_to_end re_failed f = false) ->
  In p (fs (fst (cleanupDatabaseBackups E w))).
Proof.
  intros Hp Hn. unfold cleanupDatabaseBackups.
  match goal with |- context [unlink_each E ?del ?w0] =>
    pose proof (@unlink_each_frame E del w0 p) as F;
    destruct (unlink_each E del w0) as [w1 [|]]
  end; cbn [fst log fs] in *; apply F; try assumption;
    intros H; apply in_map_iff in H as (f & Ef & Hf);
    destruct (Hn f (eq_sym Ef)) as [N1 N2];
    unfold toDelete in Hf; apply in_app_or in Hf as [Hf|Hf].
  - apply In_slice, In_backups in Hf as [_ Hf]. congruence.
  - apply In_failedBackups in Hf as [_ Hf]. congruence.
  - apply In_slice, In_backups in Hf as [_ Hf]. congruence.
  - apply In_failedBackups in Hf as [_ Hf]. congruence.
Qed.

(** ** The order of the names *)

Lemma StronglySorted_impl (A : Type) (R R' : A -> A -> Prop) l :
  (forall a b, In a l -> In b l -> R a b -> R' a b) ->
  StronglySorted R l -> StronglySorted R' l.
Proof.
  intros H S. induction S as [|x l S IH F]; constructor.
  - apply IH. intros a b Ha Hb. apply H; now right.
  - rewrite Forall_forall in *. intros y Hy. apply H; [now left | now right | now apply F].
Qed.

(** C10, amended: for well-formed artifact names of one kind (all final,
    or all temporary) whose timestamps have the same number of digits,
    sorting the names as text is sorting them by timestamp, so that the
    reversed sort of the sweep lists them most recent first. *)
Theorem name_order_is_time_order width l :
  forallb (final_of_width width) l = true \/ forallb (tmp_of_width width) l = true ->
  sort l = sort_by_timestamp l /\
  StronglySorted (fun a b => (timestamp b <= timestamp a)%N) (reverse (sort l)).
Proof.
  intros H.
  assert (O : forall a b, In a l -> In b l ->
                          str_leb a b = N.leb (timestamp a) (timestamp b)).
  { destruct H as [H|H]; rewrite forallb_forall in H; intros a b Ha Hb.
    - apply (final_names_order width); auto.
    - apply (tmp_names_order width); auto. }
  assert (E : sort l = sort_by_timestamp l) by (apply sort_by_ext; exact O).
  split; [exact E|].
  unfold reverse. apply StronglySorted_rev.
  eapply StronglySorted_impl; [|apply sort_sorted].
  intros a b Ha Hb Hab. cbv beta in Hab. apply sort_by_In in Ha, Hb.
  rewrite O in Hab by assumption. now apply N.leb_le.
Qed.

Lemma name_order_is_time_order_witness :
  sort [js "immich-db-backup-200.sql.gz"; js "immich-db-backup-100.sql.gz";
        js "immich-db-backup-300.sql.gz"] =
  sort_by_timestamp [js "immich-db-backup-200.sql.gz"; js "immich-db-backup-100.sql.gz";
                     js "immich-db-backup-300.sql.gz"] /\
  StronglySorted (fun a b => (timestamp b <= timestamp a)%N)
    (reverse (sort [js "immich-db-backup-200.sql.gz"; js "immich-db-backup-100.sql.gz";
                    js "immich-db-backup-300.sql.gz"])).
Proof.
  apply (@name_order_is_time_order 3). left. reflexivity.
Defined.

(** C10 as stated fails: 9 and 10 are well-formed, but as text the name
    with 10 comes first. (Names of both kinds with one timestamp are not
    ordered by it either: the final name comes first as text.) *)
Lemma name_order_is_time_order_counterexample :
  forallb well_formed_final
    [js "immich-db-backup-9.sql.gz"; js "immich-db-backup-10.sql.gz"] = true /\
  sort [js "immich-db-backup-9.sql.gz"; js "immich-db-backup-10.sql.gz"] =
    [js "immich-db-backup-10.sql.gz"; js "immich-db-backup-9.sql.gz"] /\
  sort_by_timestamp [js "immich-db-backup-9.sql.gz"; js "immich-db-backup-10.sql.gz"] =
    [js "immich-db-backup-9.sql.gz"; js "immich-db-backup-10.sql.gz"] /\
  sort [js "immich-db-backup-9.sql.gz"; js "immich-db-backup-10.sql.gz"] <>
  sort_by_timestamp [js "immich-db-backup-9.sql.gz"; js "immich-db-backup-10.sql.gz"] /\
  sort [js "immich-db-backup-100.sql.gz.tmp"; js "immich-db-backup-100.sql.gz"] <>
  sort_by_timestamp [js "immich-db-backup-100.sql.gz.tmp"; js "immich-db-backup-100.sql.gz"].
Proof. repeat split; try reflexivity; vm_compute; discriminate. Qed.

(** ** Scheduling *)

Lemma dispatch_refused s e :
  lock_refused e = true -> backupLock s = false -> cron s = [] ->
  backupLock (dispatch s e) = false /\ cron (dispatch s e) = [].
Proof.
  intros R L C. destruct e as [[|] c [|]|n [o|]]; simpl in *; try discriminate; auto.
  - unfold onConfigUpdate. rewrite L. simpl. auto.
Qed.

Lemma run_events_refused evs : forall s,
  backupLock s = false -> cron s = [] -> forallb lock_refused evs = true ->
  cron (run_events evs s) = [] /\ backupLock (run_events evs s) = false.
Proof.
  unfold run_events. induction evs as [|e evs IH]; intros s L C H; simpl in *.
  - auto.
  - apply andb_true_iff in H as [He H].
    destruct (dispatch_refused s e He L C) as [L' C']. now apply IH.
Qed.

(** C8: an instance that never gets the backup lock makes no call to the
    cron registry, whatever bootstrap and config-update events it receives:
    no job is added, none is updated, so none can run; its lock flag stays
    false. *)
Theorem no_lock_no_cron evs :
  forallb lock_refused evs = true ->
  cron (run_events evs initial) = [] /\ backupLock (run_events evs initial) = false.
Proof. intros H. now apply run_events_refused. Qed.

Lemma no_lock_no_cron_witness :
  cron (run_events [Bootstrap API example_policy false;
                    ConfigUpdate example_policy (Some example_policy);
                    Bootstrap MICROSERVICES example_policy true;
                    ConfigUpdate example_policy None] initial) = [] /\
  backupLock (run_events [Bootstrap API example_policy false;
                          ConfigUpdate example_policy (Some example_policy);
                          Bootstrap MICROSERVICES example_policy true;
                          ConfigUpdate example_policy None] initial) = false.
Proof.
  apply (@no_lock_no_cron [Bootstrap API example_policy false;
                           ConfigUpdate example_policy (Some example_policy);
                           Bootstrap MICROSERVICES example_policy true;
                           ConfigUpdate example_policy None]).
  reflexivity.
Defined.

(** With the lock, the same events do register and update the job. *)
Example lock_then_cron :
  cron (run_events [Bootstrap API example_policy true;
                    ConfigUpdate example_policy (Some example_policy)] initial) =
  [AddCronJob (js "backupDatabase") (js "0 02 * * *") true;
   UpdateCronJob (js "backupDatabase") (js "0 02 * * *") true].
Proof. reflexivity. Qed.

(** ** The dump pipeline: what is spawned *)

Lemma spawned_always E fs0 events :
  spawned (handleBackupDatabase E fs0 events) = [spawn_pgdump E; spawn_gzip].
Proof.
  unfold handleBackupDatabase.
  destruct (executor E _) as [p listening].
  destruct (settled _); [reflexivity | | reflexivity].
  destruct (cleanupDatabaseBackups E _) as [w [|]]; reflexivity.
Qed.

(** C9: every run spawns [pg_dumpall] and then [gzip], the latter without
    arguments. When [connectionType] is not ['url'] the arguments of the
    producer are exactly [-U username -h host --clean --if-exists] and the
    password goes into [PGPASSWORD] of the environment of that process only;
    with ['url'] they are exactly [url --clean --if-exists] and no
    [PGPASSWORD] is set. The arguments are computed without the password:
    changing it leaves them unchanged. *)
Theorem pgdump_invocation E fs0 events :
  spawned (handleBackupDatabase E fs0 events) = [spawn_pgdump E; spawn_gzip] /\
  command (spawn_pgdump E) = js "pg_dumpall" /\
  args (spawn_pgdump E) =
    (if str_eqb (connectionType (database E)) (js "url")
     then [url (database E); js "--clean"; js "--if-exists"]
     else [js "-U"; username (database E); js "-h"; host (database E);
           js "--clean"; js "--if-exists"]) /\
  env_PGPASSWORD (spawn_pgdump E) =
    (if str_eqb (connectionType (database E)) (js "url")
     then None else Some (password (database E))) /\
  env_PATH (spawn_pgdump E) = PATH E /\
  (forall pw, args (spawn_pgdump (with_database (with_password pw (database E)) E)) =
              args (spawn_pgdump E)) /\
  command spawn_gzip = js "gzip" /\ args spawn_gzip = [] /\ spawn_env spawn_gzip = None.
Proof.
  split; [apply spawned_always|].
  unfold spawn_pgdump, env_PGPASSWORD, env_PATH, databaseParams, isUrlConnection.
  cbn [command args spawn_env database with_database with_password
       connectionType url username host].
  destruct (str_eqb (connectionType (database E)) (js "url")); repeat split.
Qed.

Example pgdump_invocation_host :
  args (spawn_pgdump example_env) =
    [js "-U"; js "postgres"; js "-h"; js "database"; js "--clean"; js "--if-exists"] /\
  env_PGPASSWORD (spawn_pgdump example_env) = Some (js "hunter2").
Proof. split; reflexivity. Qed.

(** ** The dump pipeline: how a run ends *)

Lemma handleBackupDatabase_pipeline E fs0 events :
  handleBackupDatabase E fs0 events =
  let p := pipeline E fs0 events in
  let sp := [spawn_pgdump E; spawn_gzip] in
  match settled p with
  | Pending => {| result := Hangs; final := world p; spawned := sp |}
  | RejectedWith error =>
      {| result := Returns FAILED;
         final := log (LErrorWith (js "Database Backup Failure") error) (world p);
         spawned := sp |}
  | Fulfilled =>
      match cleanupDatabaseBackups E (log (LDebug (js "Database Backup Success")) (world p)) with
      | (w, true) => {| result := Returns SUCCESS; final := w; spawned := sp |}
      | (w, false) => {| result := Throws; final := w; spawned := sp |}
      end
  end.
Proof.
  unfold handleBackupDatabase, pipeline.
  destruct (executor E _) as [p listening]. reflexivity.
Qed.

Lemma settle_not_pending v p : v <> Pending -> settled (settle v p) <> Pending.
Proof.
  intros Hv. unfold settle. cbn [settled]. destruct (settled p); congruence.
Qed.

Lemma settle_settled v p : settled p <> Pending -> settled (settle v p) = settled p.
Proof.
  intros H. unfold settle. cbn [settled]. destruct (settled p); congruence.
Qed.

Lemma settle_rejected r p :
  settled p <> Fulfilled -> settled (settle (RejectedWith r) p) <> Fulfilled.
Proof.
  intros H. unfold settle. cbn [settled]. destruct (settled p); congruence.
Qed.

(** A settled promise stays as it is. *)
Lemma handle_settled E p ev :
  settled p <> Pending -> settled (handle E p ev) = settled p.
Proof.
  intros H. destruct ev as [e|e|d|d|c|c]; cbn [handle].
  - unfold reject. now rewrite settle_settled.
  - unfold reject. now rewrite settle_settled.
  - reflexivity.
  - reflexivity.
  - destruct (nonzero c).
    + cbn [on_world settled]. unfold reject. now rewrite settle_settled.
    + cbn [pgdumpLogs]. destruct (negb (str_eqb (pgdumpLogs p) [])); reflexivity.
  - destruct (nonzero c).
    + cbn [on_world settled]. unfold reject. now rewrite settle_settled.
    + destruct (nonzero (pgdump_exitCode p)); [reflexivity|].
      destruct (rename _ _ _ _); unfold resolve, reject; now rewrite settle_settled.
Qed.

Lemma fold_handle_settled E events : forall p,
  settled p <> Pending -> settled (fold_left (handle E) events p) = settled p.
Proof.
  induction events as [|ev events IH]; intros p H; simpl; [reflexivity|].
  rewrite IH; rewrite handle_settled; auto.
Qed.

Lemma handle_failing E p ev :
  Failing p -> (forall c, ev = PgdumpExit c -> nonzero c = true) ->
  Failing (handle E p ev).
Proof.
  unfold Failing. intros (X & S & R) Hc.
  destruct ev as [e|e|d|d|c|c]; cbn [handle].
  - repeat split; [exact X | now apply settle_rejected | exact R].
  - repeat split; [exact X | now apply settle_rejected | exact R].
  - repeat split; assumption.
  - repeat split; assumption.
  - rewrite (Hc c eq_refl). cbn [on_world settled world pgdump_exitCode].
    repeat split; [now apply Hc | now apply settle_rejected | exact R].
  - destruct (nonzero c).
    + cbn [on_world settled world pgdump_exitCode].
      repeat split; [exact X | now apply settle_rejected | exact R].
    + rewrite X. repeat split; assumption.
Qed.

Lemma In_pgdump_exits events c : In c (pgdump_exits events) <-> In (PgdumpExit c) events.
Proof.
  unfold pgdump_exits. rewrite in_flat_map. split.
  - intros (ev & Hev & Hc). destruct ev; try contradiction.
    destruct Hc as [->|[]]. assumption.
  - intros H. exists (PgdumpExit c). split; [assumption | now left].
Qed.

Lemma fold_handle_failing E events : forall p,
  Failing p -> (forall c, In (PgdumpExit c) events -> nonzero c = true) ->
  Failing (fold_left (handle E) events p).
Proof.
  induction events as [|ev events IH]; intros p F H; simpl; [assumption|].
  apply IH.
  - apply handle_failing; [assumption|]. intros c ->. apply H. now left.
  - intros c Hc. apply H. now right.
Qed.

Lemma handle_exit_settles E p c :
  nonzero c = true -> settled (handle E p (PgdumpExit c)) <> Pending.
Proof.
  intros H. cbn [handle]. rewrite H. cbn [on_world settled].
  apply settle_not_pending. discriminate.
Qed.

Lemma executor_cases E w :
  (exists p, executor E w = (p, false) /\ (exists r, settled p = RejectedWith r) /\
             calls (world p) = calls w ++ [CCreateWriteStream (backupFilePath E)] /\
             fs (world p) = createWriteStream (backupFilePath E) (fs w)) \/
  (piped E = true /\
   executor E w =
   ({| world := {| fs := createWriteStream (backupFilePath E) (fs w);
                   logs := logs w;
                   calls := calls w ++ [CCreateWriteStream (backupFilePath E)] |};
       settled := Pending; pgdump_exitCode := None;
       pgdumpLogs := []; gzipLogs := [] |}, true)).
Proof.
  unfold executor, piped.
  destruct (gzip_stdout E), (pgdump_stderr E), (pgdump_stdout E), (gzip_stderr E);
    cbn [negb orb andb];
    try (right; split; reflexivity);
    left; eexists; (split; [reflexivity|]);
    (split; [eexists; reflexivity|]); split; reflexivity.
Qed.

(** C2: when the producer exits with a non-zero status (or is ended by a
    signal), the run returns FAILED and no file is renamed, whatever else
    happens in the run and in whatever order, a later exit of the compressor
    with status zero included. *)
Theorem producer_failure_fails_run E fs0 events c :
  pgdump_exits events = [c] -> nonzero c = true ->
  result (handleBackupDatabase E fs0 events) = Returns FAILED /\
  forallb (fun k => negb (is_rename k))
          (calls (final (handleBackupDatabase E fs0 events))) = true.
Proof.
  intros Hex Hc.
  assert (Hall : forall c', In (PgdumpExit c') events -> nonzero c' = true).
  { intros c' H. apply In_pgdump_exits in H. rewrite Hex in H.
    destruct H as [<-|[]]. exact Hc. }
  assert (Hin : In (PgdumpExit c) events).
  { apply In_pgdump_exits. rewrite Hex. now left. }
  assert (P : exists r, settled (pipeline E fs0 events) = RejectedWith r /\
              forallb (fun k => negb (is_rename k))
                      (calls (world (pipeline E fs0 events))) = true).
  { unfold pipeline.
    destruct (executor_cases E (log (LDebug (js "Database Backup Started"))
                                    {| fs := fs0; logs := []; calls := [] |}))
      as [(p & -> & (r & Hr) & Hcalls & _)|[_ ->]].
    - exists r. split; [assumption|]. rewrite Hcalls. reflexivity.
    - apply in_split in Hin as (pre & post & ->).
      rewrite fold_left_app. cbn [fold_left].
      match goal with |- context [fold_left (handle E) pre ?p0] =>
        assert (F0 : Failing p0) by (repeat split; discriminate) ;
        pose proof (@fold_handle_failing E pre p0 F0) as F1
      end.
      match type of F1 with _ -> Failing ?p1 =>
        assert (F : Failing p1) by (apply F1; intros c' H'; apply Hall, in_or_app; now left);
        clear F1; set (q := p1) in *
      end.
      assert (F2 : Failing (handle E q (PgdumpExit c)))
        by (apply handle_failing; [assumption | intros ? [= <-]; assumption]).
      pose proof (@handle_exit_settles E q c Hc) as S2.
      pose proof (@fold_handle_failing E post _ F2) as F3.
      assert (F4 : Failing (fold_left (handle E) post (handle E q (PgdumpExit c)))).
      { apply F3. intros c' H'. apply Hall, in_or_app. right. now right. }
      pose proof (@fold_handle_settled E post _ S2) as S4.
      destruct F4 as (_ & NF & NR).
      destruct (settled (fold_left (handle E) post (handle E q (PgdumpExit c)))) eqn:St.
      + congruence.
      + congruence.
      + exists reason. split; [reflexivity | exact NR]. }
  destruct P as (r & Hr & Hn).
  rewrite handleBackupDatabase_pipeline. cbv zeta. rewrite Hr. cbn [result final log calls].
  split; [reflexivity | exact Hn].
Qed.

Lemma producer_failure_fails_run_witness :
  result (handleBackupDatabase example_env orphan_fs
            [PgdumpStderr (js "connection refused"); PgdumpExit (Some 1%Z);
             GzipExit (Some 0%Z)]) = Returns FAILED /\
  forallb (fun k => negb (is_rename k))
          (calls (final (handleBackupDatabase example_env orphan_fs
                           [PgdumpStderr (js "connection refused"); PgdumpExit (Some 1%Z);
                            GzipExit (Some 0%Z)]))) = true.
Proof.
  apply (@producer_failure_fails_run example_env orphan_fs
           [PgdumpStderr (js "connection refused"); PgdumpExit (Some 1%Z);
            GzipExit (Some 0%Z)] (Some 1%Z)); reflexivity.
Defined.

Lemma settle_rejected_fulfilled r p :
  settled (settle (RejectedWith r) p) = Fulfilled -> settled p = Fulfilled.
Proof. unfold settle. cbn [settled]. destruct (settled p); congruence. Qed.

Lemma handle_piping E p ev : Piping p -> Piping (handle E p ev).
Proof.
  unfold Piping. intros [C F].
  destruct ev as [e|e|d|d|c|c]; cbn [handle].
  - cbn [reject settle on_world world log calls]. split; [exact C|].
    intros H. apply settle_rejected_fulfilled in H. auto.
  - cbn [reject settle on_world world log calls]. split; [exact C|].
    intros H. apply settle_rejected_fulfilled in H. auto.
  - split; assumption.
  - split; assumption.
  - destruct (nonzero c).
    + cbn [reject settle on_world world log calls settled]. split; [exact C|].
      intros H. apply F. cbn [settled] in *. destruct (settled p); congruence.
    + cbn [pgdumpLogs]. destruct (negb (str_eqb (pgdumpLogs p) [])); split; assumption.
  - destruct (nonzero c).
    + cbn [reject settle on_world world log calls settled]. split; [exact C|].
      intros H. apply F. cbn [settled] in *. destruct (settled p); congruence.
    + destruct (nonzero (pgdump_exitCode p)); [split; assumption|].
      cbn [on_world world call calls fs settled pgdump_exitCode].
      assert (C' : forallb pipeline_call
                     (calls (world p) ++
                      [CRename (backupFilePath E)
                               (replace_first (js ".tmp") [] (backupFilePath E))]) = true)
        by (rewrite forallb_app, C; reflexivity).
      assert (R' : existsb is_rename
                     (calls (world p) ++
                      [CRename (backupFilePath E)
                               (replace_first (js ".tmp") [] (backupFilePath E))]) = true)
        by (rewrite existsb_app; apply orb_true_iff; now right).
      destruct (rename _ _ _ _);
        cbn [resolve reject settle on_world world log calls set_fs settled];
        split; auto.
Qed.

Lemma fold_handle_piping E events : forall p,
  Piping p -> Piping (fold_left (handle E) events p).
Proof.
  induction events as [|ev events IH]; intros p H; simpl; [assumption|].
  now apply IH, handle_piping.
Qed.

Lemma pipeline_piping E fs0 events : Piping (pipeline E fs0 events).
Proof.
  unfold pipeline.
  destruct (executor_cases E (log (LDebug (js "Database Backup Started"))
                                  {| fs := fs0; logs := []; calls := [] |}))
    as [(p & -> & (r & Hr) & Hcalls & _)|[_ ->]].
  - split; [now rewrite Hcalls | congruence].
  - apply fold_handle_piping. split; [reflexivity | discriminate].
Qed.

Lemma unlink_each_calls E : forall del w,
  exists l, calls (fst (unlink_each E del w)) = calls w ++ unlink_calls E l.
Proof.
  induction del as [|f del IH]; intros w; simpl.
  - exists []. simpl. now rewrite app_nil_r.
  - destruct (unlink _ _ _) as [f'|].
    + destruct (IH (set_fs f' (call (CUnlink (path_join (backupsFolder E) f)) w))) as [l Hl].
      exists (f :: l). rewrite Hl. cbn [set_fs call calls unlink_calls map].
      now rewrite <- app_assoc.
    + exists [f]. reflexivity.
Qed.

Lemma cleanup_calls E w :
  exists l, calls (fst (cleanupDatabaseBackups E w)) =
            calls w ++ CReaddir (backupsFolder E) :: unlink_calls E l.
Proof.
  unfold cleanupDatabaseBackups.
  match goal with |- context [unlink_each E ?del ?w0] =>
    destruct (unlink_each_calls E del w0) as [l Hl];
    destruct (unlink_each E del w0) as [w1 [|]]
  end; exists l; cbn [fst log calls] in *; rewrite Hl;
    cbn [call log calls]; now rewrite <- app_assoc.
Qed.

Lemma pipeline_call_not_readdir l :
  forallb pipeline_call l = true -> filter is_readdir l = [].
Proof.
  induction l as [|c l IH]; simpl; [reflexivity|].
  intros H. apply andb_true_iff in H as [Hc Hl]. destruct c; try discriminate; auto.
Qed.

Lemma unlink_calls_not_readdir E l : filter is_readdir (unlink_calls E l) = [].
Proof. induction l as [|f l IH]; simpl; auto. Qed.

(** C6, amended: the sweep runs once after a successful run only. A run
    that reaches the sweep has fulfilled its promise: the sweep lists the
    folder once, after the storage calls of the pipeline, a rename among
    them. A run that returns FAILED (spawn failure, stage failure, failed
    rename), or that never settles, starts no sweep: it lists no folder and
    unlinks nothing, so its temporary file is left for a later run. *)
Theorem sweep_only_after_success E fs0 events :
  match result (handleBackupDatabase E fs0 events) with
  | Returns SUCCESS | Throws =>
      sweeps (final (handleBackupDatabase E fs0 events)) = 1 /\
      exists before l,
        calls (final (handleBackupDatabase E fs0 events)) =
          before ++ CReaddir (backupsFolder E) :: unlink_calls E l /\
        forallb pipeline_call before = true /\
        existsb is_rename before = true
  | Returns FAILED | Hangs =>
      sweeps (final (handleBackupDatabase E fs0 events)) = 0 /\
      forallb pipeline_call (calls (final (handleBackupDatabase E fs0 events))) = true
  end.
Proof.
  rewrite handleBackupDatabase_pipeline. cbv zeta.
  destruct (pipeline_piping E fs0 events) as [C F].
  destruct (settled (pipeline E fs0 events)) eqn:S.
  - cbn [result final]. unfold sweeps. now rewrite pipeline_call_not_readdir.
  - specialize (F eq_refl).
    destruct (cleanup_calls E (log (LDebug (js "Database Backup Success"))
                                   (world (pipeline E fs0 events)))) as [l Hl].
    cbn [log calls] in Hl.
    assert (G : forall w ok,
              cleanupDatabaseBackups E (log (LDebug (js "Database Backup Success"))
                                            (world (pipeline E fs0 events))) = (w, ok) ->
              sweeps w = 1 /\
              exists before l0,
                calls w = before ++ CReaddir (backupsFolder E) :: unlink_calls E l0 /\
                forallb pipeline_call before = true /\ existsb is_rename before = true).
    { intros w ok Hw. rewrite Hw in Hl. cbn [fst] in Hl. split.
      - unfold sweeps. rewrite Hl, filter_app. cbn [filter is_readdir].
        now rewrite pipeline_call_not_readdir, unlink_calls_not_readdir.
      - exists (calls (world (pipeline E fs0 events))), l. auto. }
    destruct (cleanupDatabaseBackups E _) as [w [|]] eqn:Hw; cbn [result final];
      exact (G _ _ eq_refl).
  - cbn [result final log calls]. unfold sweeps. cbn [log calls].
    now rewrite pipeline_call_not_readdir.
Qed.

(** C6 as stated fails: the producer fails, the run returns FAILED, and no
    sweep follows: the temporary file of the run and an older orphan are
    both still in the folder. *)
Lemma sweep_after_failure_counterexample :
  result (handleBackupDatabase example_env orphan_fs
            [PgdumpExit (Some 1%Z); GzipExit (Some 0%Z)]) = Returns FAILED /\
  sweeps (final (handleBackupDatabase example_env orphan_fs
                   [PgdumpExit (Some 1%Z); GzipExit (Some 0%Z)])) = 0 /\
  calls (final (handleBackupDatabase example_env orphan_fs
                  [PgdumpExit (Some 1%Z); GzipExit (Some 0%Z)])) =
    [CCreateWriteStream (js "upload/backups/immich-db-backup-1700000000000.sql.gz.tmp")] /\
  fs (final (handleBackupDatabase example_env orphan_fs
               [PgdumpExit (Some 1%Z); GzipExit (Some 0%Z)])) =
    [js "upload/backups/immich-db-backup-1600000000000.sql.gz";
     js "upload/backups/immich-db-backup-1650000000000.sql.gz.tmp";
     js "upload/backups/immich-db-backup-1700000000000.sql.gz.tmp"].
Proof. repeat split; reflexivity. Qed.

(** ** The name of the artifact of a run *)

Lemma uint_chars_digits u : forallb is_digit (uint_chars u) = true.
Proof. induction u; simpl; auto. Qed.

Lemma uint_chars_nil u : uint_chars u = [] -> u = Decimal.Nil.
Proof. destruct u; simpl; congruence. Qed.

Lemma decimal_digits n : all_digits (decimal n) = true.
Proof.
  unfold all_digits, decimal. rewrite uint_chars_digits, andb_true_r.
  apply negb_true_iff, str_eqb_neq. intros H. apply uint_chars_nil in H.
  destruct n as [|p]; [discriminate|].
  exact (DecimalPos.Unsigned.to_uint_nonnil p H).
Qed.

Lemma replace_first_eq p r s :
  replace_first p r s =
  if starts_with p s then r ++ skipn (List.length p) s
  else match s with
       | [] => []
       | c :: s' => c :: replace_first p r s'
       end.
Proof. destruct s; reflexivity. Qed.

Lemma starts_with_tmp_dot c s :
  ascii_eqb "."%char c = false -> starts_with (js ".tmp") (c :: s) = false.
Proof. intros H. cbn [js list_ascii_of_string starts_with]. now rewrite H. Qed.

(** Text without a dot is copied by [.replace('.tmp', '')]. *)
Lemma replace_first_dotless pre rest :
  forallb (fun c => negb (ascii_eqb "."%char c)) pre = true ->
  replace_first (js ".tmp") [] (pre ++ rest) =
  pre ++ replace_first (js ".tmp") [] rest.
Proof.
  induction pre as [|c pre IH]; intros H; [reflexivity|].
  cbn [forallb] in H. apply andb_true_iff in H as [Hc H]. apply negb_true_iff in Hc.
  cbn [app]. rewrite replace_first_eq, (starts_with_tmp_dot _ _ Hc). f_equal. now apply IH.
Qed.

Lemma digit_not_dot d :
  forallb is_digit d = true -> forallb (fun c => negb (ascii_eqb "."%char c)) d = true.
Proof.
  induction d as [|c d IH]; simpl; intros H; [reflexivity|].
  apply andb_true_iff in H as [Hc H]. rewrite IH by assumption. rewrite andb_true_r.
  apply negb_true_iff. unfold ascii_eqb. apply N.eqb_neq.
  apply is_digit_range in Hc. change (code_unit "."%char) with 46%N. lia.
Qed.

Lemma starts_with_tmp_slash s r :
  starts_with (js ".tmp") (s ++ "/"%char :: r) = true -> starts_with (js ".tmp") s = true.
Proof.
  cbn [js list_ascii_of_string].
  destruct s as [|a [|b [|c [|d s]]]]; cbn [app starts_with];
    repeat match goal with
           | |- context [ascii_eqb ?x ?y] =>
               lazymatch y with
               | "/"%char => change (ascii_eqb x y) with false
               | _ => destruct (ascii_eqb x y)
               end; cbn [andb]
           end; congruence.
Qed.

(** A folder without [.tmp] in its path is copied as well. *)
Lemma replace_first_folder : forall dir rest,
  includes (js ".tmp") dir = false ->
  replace_first (js ".tmp") [] (dir ++ "/"%char :: rest) =
  dir ++ replace_first (js ".tmp") [] ("/"%char :: rest).
Proof.
  induction dir as [|c dir IH]; intros rest H; [reflexivity|].
  cbn [includes] in H. apply orb_false_iff in H as [H1 H2].
  cbn [app]. rewrite replace_first_eq.
  destruct (starts_with (js ".tmp") (c :: dir ++ "/"%char :: rest)) eqn:S.
  - apply (starts_with_tmp_slash (c :: dir)) in S. congruence.
  - f_equal. now apply IH.
Qed.

(** The rename of a run strips the suffix of its temporary file. *)
Lemma published_name E :
  includes (js ".tmp") (backupsFolder E) = false ->
  replace_first (js ".tmp") [] (backupFilePath E) = published E.
Proof.
  intros H. unfold backupFilePath, published, path_join, final_name.
  rewrite replace_first_folder by assumption. f_equal.
  change ("/"%char :: js "immich-db-backup-" ++ decimal (now E) ++ js ".sql.gz.tmp")
    with (("/"%char :: js "immich-db-backup-") ++ decimal (now E) ++ js ".sql.gz.tmp").
  rewrite replace_first_dotless by reflexivity.
  rewrite replace_first_dotless
    by (apply digit_not_dot, all_digits_forallb, decimal_digits).
  reflexivity.
Qed.

Lemma published_well_formed E : well_formed_final (final_name (decimal (now E))) = true.
Proof. apply well_formed_final_spec. exists (decimal (now E)). split; [apply decimal_digits | reflexivity]. Qed.

Lemma published_not_temporary E : backupFilePath E <> published E.
Proof.
  unfold backupFilePath, published, path_join, final_name. intros H.
  apply app_inv_head in H. injection H as H. apply app_inv_head in H.
  discriminate H.
Qed.

(** ** Creating and renaming files *)

Lemma createWriteStream_In p fs0 : In p (createWriteStream p fs0).
Proof.
  unfold createWriteStream. destruct (mem p fs0) eqn:M.
  - now apply mem_In.
  - apply in_or_app. right. now left.
Qed.

Lemma createWriteStream_NoDup p fs0 : NoDup fs0 -> NoDup (createWriteStream p fs0).
Proof.
  intros ND. unfold createWriteStream. destruct (mem p fs0) eqn:M; [assumption|].
  apply mem_not_In in M. apply NoDup_app; [assumption | repeat constructor; intros [] |].
  intros q Hq [<-|[]]. contradiction.
Qed.

Lemma rename_Some denied a b fs0 fs1 :
  rename denied a b fs0 = Some fs1 ->
  fs1 = map (fun q => if str_eqb a q then b else q)
            (filter (fun q => str_eqb a q || negb (str_eqb b q)) fs0) /\
  In a fs0.
Proof.
  unfold rename. destruct (denied a b); [discriminate|].
  destruct (mem a fs0) eqn:M; [|discriminate].
  intros [= <-]. split; [reflexivity | now apply mem_In].
Qed.

Lemma rename_succeeds denied a b fs0 :
  denied a b = false -> In a fs0 -> exists fs1, rename denied a b fs0 = Some fs1.
Proof.
  intros D H. unfold rename. rewrite D. apply mem_In in H. rewrite H. eauto.
Qed.

Lemma rename_target denied a b fs0 fs1 :
  rename denied a b fs0 = Some fs1 -> In b fs1.
Proof.
  intros H. apply rename_Some in H as [-> Ha].
  apply in_map_iff. exists a. rewrite str_eqb_refl. split; [reflexivity|].
  apply filter_In. split; [assumption|]. now rewrite str_eqb_refl.
Qed.

Lemma rename_source denied a b fs0 fs1 :
  rename denied a b fs0 = Some fs1 -> a <> b -> ~ In a fs1.
Proof.
  intros H Hab. apply rename_Some in H as [-> _]. intros H.
  apply in_map_iff in H as (q & Hq & _).
  destruct (str_eqb a q) eqn:E; [congruence|].
  apply str_eqb_neq in E. congruence.
Qed.

Lemma rename_NoDup denied a b fs0 fs1 :
  rename denied a b fs0 = Some fs1 -> NoDup fs0 -> NoDup fs1.
Proof.
  intros H ND. apply rename_Some in H as [-> _].
  apply NoDup_map_NoDup_ForallPairs; [|now apply NoDup_filter].
  intros x y Hx Hy. apply filter_In in Hx as [_ Hx], Hy as [_ Hy].
  destruct (str_eqb a x) eqn:Ex, (str_eqb a y) eqn:Ey; cbn [orb] in *.
  - apply str_eqb_eq in Ex, Ey. congruence.
  - intros <-. rewrite str_eqb_refl in Hy. discriminate.
  - intros ->. rewrite str_eqb_refl in Hx. discriminate.
  - auto.
Qed.

(** ** A run in which both stages succeed *)

Lemma fold_stderr E events : forall p,
  forallb is_stderr events = true ->
  world (fold_left (handle E) events p) = world p /\
  settled (fold_left (handle E) events p) = settled p /\
  pgdump_exitCode (fold_left (handle E) events p) = pgdump_exitCode p.
Proof.
  induction events as [|ev events IH]; intros p H; [auto|].
  cbn [forallb] in H. apply andb_true_iff in H as [Hev H].
  cbn [fold_left]. destruct (IH (handle E p ev) H) as (W & S & X).
  rewrite W, S, X. destruct ev; try discriminate; auto.
Qed.

Lemma handle_pgdump_zero E p :
  fs (world (handle E p (PgdumpExit (Some 0%Z)))) = fs (world p) /\
  calls (world (handle E p (PgdumpExit (Some 0%Z)))) = calls (world p) /\
  settled (handle E p (PgdumpExit (Some 0%Z))) = settled p /\
  pgdump_exitCode (handle E p (PgdumpExit (Some 0%Z))) = Some 0%Z.
Proof.
  cbn [handle nonzero Z.eqb negb pgdumpLogs].
  destruct (negb (str_eqb (pgdumpLogs p) [])); auto.
Qed.

Lemma handle_gzip_zero E p fs1 :
  settled p = Pending -> pgdump_exitCode p = Some 0%Z ->
  rename (rename_denied E) (backupFilePath E)
         (replace_first (js ".tmp") [] (backupFilePath E)) (fs (world p)) = Some fs1 ->
  fs (world (handle E p (GzipExit (Some 0%Z)))) = fs1 /\
  calls (world (handle E p (GzipExit (Some 0%Z)))) =
    calls (world p) ++ [CRename (backupFilePath E)
                                (replace_first (js ".tmp") [] (backupFilePath E))] /\
  settled (handle E p (GzipExit (Some 0%Z))) = Fulfilled.
Proof.
  intros S X R. cbn [handle nonzero Z.eqb negb]. rewrite X.
  cbn [nonzero Z.eqb negb on_world world call fs]. rewrite R.
  cbn [resolve settle on_world world set_fs fs calls settled call]. rewrite S. auto.
Qed.

Lemma fold_after_exits E events : forall p,
  settled p = Fulfilled ->
  forallb (fun ev => negb (is_exit ev)) events = true ->
  fs (world (fold_left (handle E) events p)) = fs (world p) /\
  calls (world (fold_left (handle E) events p)) = calls (world p) /\
  settled (fold_left (handle E) events p) = Fulfilled.
Proof.
  induction events as [|ev events IH]; intros p S H; [auto|].
  cbn [forallb] in H. apply andb_true_iff in H as [Hev H]. cbn [fold_left].
  assert (S' : settled (handle E p ev) = Fulfilled)
    by (rewrite handle_settled; congruence).
  destruct (IH (handle E p ev) S' H) as (F & C & St). rewrite F, C, St.
  destruct ev; try discriminate; auto.
Qed.

Lemma executor_piped E w :
  piped E = true ->
  executor E w =
  ({| world := {| fs := createWriteStream (backupFilePath E) (fs w);
                  logs := logs w;
                  calls := calls w ++ [CCreateWriteStream (backupFilePath E)] |};
      settled := Pending; pgdump_exitCode := None;
      pgdumpLogs := []; gzipLogs := [] |}, true).
Proof.
  unfold piped. rewrite !andb_true_iff. intros [[[H1 H2] H3] H4].
  unfold executor. rewrite H1, H2, H3, H4. reflexivity.
Qed.

(** Where the pipeline stands after such a run: the temporary file has been
    renamed and the promise is fulfilled. *)
Lemma pipeline_clean_run E fs0 pre mid post :
  piped E = true ->
  includes (js ".tmp") (backupsFolder E) = false ->
  forallb is_stderr pre = true -> forallb is_stderr mid = true ->
  forallb (fun ev => negb (is_exit ev)) post = true ->
  rename_denied E (backupFilePath E) (published E) = false ->
  exists fs1,
    rename (rename_denied E) (backupFilePath E) (published E)
           (createWriteStream (backupFilePath E) fs0) = Some fs1 /\
    fs (world (pipeline E fs0 (clean_run pre mid post))) = fs1 /\
    calls (world (pipeline E fs0 (clean_run pre mid post))) =
      [CCreateWriteStream (backupFilePath E); CRename (backupFilePath E) (published E)] /\
    settled (pipeline E fs0 (clean_run pre mid post)) = Fulfilled.
Proof.
  intros Hp Hdir Hpre Hmid Hpost Hren.
  destruct (@rename_succeeds (rename_denied E) (backupFilePath E) (published E)
              (createWriteStream (backupFilePath E) fs0) Hren
              (createWriteStream_In _ _)) as [fs1 R].
  exists fs1. split; [exact R|].
  unfold pipeline. rewrite executor_piped by assumption.
  unfold clean_run. rewrite fold_left_app. cbn [fold_left]. rewrite fold_left_app.
  cbn [fold_left].
  match goal with |- context [fold_left (handle E) pre ?p] => set (p0 := p) end.
  destruct (@fold_stderr E pre p0 Hpre) as (W1 & S1 & X1).
  set (p1 := fold_left (handle E) pre p0) in *.
  destruct (handle_pgdump_zero E p1) as (F2 & C2 & S2 & X2).
  set (p2 := handle E p1 (PgdumpExit (Some 0%Z))) in *.
  destruct (@fold_stderr E mid p2 Hmid) as (W3 & S3 & X3).
  set (p3 := fold_left (handle E) mid p2) in *.
  assert (R3 : rename (rename_denied E) (backupFilePath E)
                 (replace_first (js ".tmp") [] (backupFilePath E)) (fs (world p3)) = Some fs1).
  { rewrite published_name by assumption. rewrite W3, F2, W1. exact R. }
  assert (S3' : settled p3 = Pending) by (rewrite S3, S2, S1; reflexivity).
  assert (X3' : pgdump_exitCode p3 = Some 0%Z) by (rewrite X3; exact X2).
  destruct (@handle_gzip_zero E p3 fs1 S3' X3' R3) as (F4 & C4 & S4).
  set (p4 := handle E p3 (GzipExit (Some 0%Z))) in *.
  destruct (@fold_after_exits E post p4 S4 Hpost) as (F5 & C5 & S5).
  rewrite F5, C5, S5, F4, C4, W3, C2, W1.
  rewrite published_name by assumption. auto.
Qed.

(** C1, amended: a run in which the producer exits with status zero and the
    compressor exits with status zero after it, with nothing but output on
    the error streams before that, in which the rename succeeds, no deletion
    of the sweep is denied, and the path of the backup folder does not
    contain [.tmp]: the temporary file is renamed to its name without the
    [.tmp] suffix, a well-formed final artifact name; the run returns SUCCESS,
    the rename coming before the sweep that precedes the return; and the
    temporary file of the run is gone afterwards. *)
Theorem both_stages_succeed E fs0 pre mid post :
  piped E = true ->
  distinct fs0 = true ->
  includes (js ".tmp") (backupsFolder E) = false ->
  forallb is_stderr pre = true -> forallb is_stderr mid = true ->
  forallb (fun ev => negb (is_exit ev)) post = true ->
  rename_denied E (backupFilePath E) (published E) = false ->
  (forall q, unlink_denied E q = false) ->
  result (handleBackupDatabase E fs0 (clean_run pre mid post)) = Returns SUCCESS /\
  well_formed_final (final_name (decimal (now E))) = true /\
  (exists l,
     calls (final (handleBackupDatabase E fs0 (clean_run pre mid post))) =
     CCreateWriteStream (backupFilePath E) :: CRename (backupFilePath E) (published E)
       :: CReaddir (backupsFolder E) :: unlink_calls E l) /\
  ~ In (backupFilePath E) (fs (final (handleBackupDatabase E fs0 (clean_run pre mid post)))) /\
  (In (published E) (fs (final (handleBackupDatabase E fs0 (clean_run pre mid post)))) \/
   In (CUnlink (published E))
      (calls (final (handleBackupDatabase E fs0 (clean_run pre mid post))))).
Proof.
  intros Hp D Hdir Hpre Hmid Hpost Hren Hdel.
  destruct (@pipeline_clean_run E fs0 pre mid post Hp Hdir Hpre Hmid Hpost Hren)
    as (fs1 & R & F & C & S).
  rewrite handleBackupDatabase_pipeline. cbv zeta. rewrite S.
  set (w := log (LDebug (js "Database Backup Success"))
                (world (pipeline E fs0 (clean_run pre mid post)))).
  assert (Fw : fs w = fs1) by exact F.
  assert (Cw : calls w = [CCreateWriteStream (backupFilePath E);
                          CRename (backupFilePath E) (published E)]) by exact C.
  assert (ND : NoDup fs1).
  { eapply rename_NoDup; [exact R|].
    apply createWriteStream_NoDup. now apply distinct_NoDup. }
  assert (Dw : distinct (fs w) = true) by (rewrite Fw; now apply distinct_NoDup).
  assert (Ok : deletable E w = true) by (apply deletable_spec; intros; apply Hdel).
  rewrite (cleanup_ok E w Dw Ok). cbn [result final fs calls].
  split; [reflexivity|]. split; [apply published_well_formed|].
  split; [exists (candidates E w); rewrite Cw; reflexivity|].
  rewrite Fw. split.
  - rewrite In_without. intros [H _].
    exact (@rename_source _ _ _ _ _ R (@published_not_temporary E) H).
  - destruct (mem (final_name (decimal (now E))) (candidates E w)) eqn:M.
    + right. apply mem_In in M. apply in_or_app. right. right.
      apply (in_map (fun f => CUnlink (path_join (backupsFolder E) f))) in M. exact M.
    + left. apply mem_not_In in M. apply In_without.
      split; [exact (@rename_target _ _ _ _ _ R)|].
      intros H. apply in_map_iff in H as (x & Ex & Hx).
      apply path_join_inj in Ex. subst x. contradiction.
Qed.

Lemma both_stages_succeed_witness :
  result (handleBackupDatabase example_env orphan_fs
            (clean_run [PgdumpStderr (js "NOTICE")] [] [])) = Returns SUCCESS /\
  well_formed_final (final_name (decimal (now example_env))) = true /\
  (exists l,
     calls (final (handleBackupDatabase example_env orphan_fs
                     (clean_run [PgdumpStderr (js "NOTICE")] [] []))) =
     CCreateWriteStream (backupFilePath example_env)
       :: CRename (backupFilePath example_env) (published example_env)
       :: CReaddir (backupsFolder example_env) :: unlink_calls example_env l) /\
  ~ In (backupFilePath example_env)
       (fs (final (handleBackupDatabase example_env orphan_fs
                     (clean_run [PgdumpStderr (js "NOTICE")] [] [])))) /\
  (In (published example_env)
      (fs (final (handleBackupDatabase example_env orphan_fs
                    (clean_run [PgdumpStderr (js "NOTICE")] [] [])))) \/
   In (CUnlink (published example_env))
      (calls (final (handleBackupDatabase example_env orphan_fs
                       (clean_run [PgdumpStderr (js "NOTICE")] [] []))))).
Proof.
  apply (@both_stages_succeed example_env orphan_fs [PgdumpStderr (js "NOTICE")] [] []);
    reflexivity.
Defined.

(** The run of the witness, evaluated: the artifact is published, the
    orphan of an earlier run is swept, and the run logs its success. *)
Example successful_run :
  result (handleBackupDatabase example_env orphan_fs
            (clean_run [PgdumpStderr (js "NOTICE")] [] [])) = Returns SUCCESS /\
  fs (final (handleBackupDatabase example_env orphan_fs
               (clean_run [PgdumpStderr (js "NOTICE")] [] []))) =
    [js "upload/backups/immich-db-backup-1600000000000.sql.gz";
     js "upload/backups/immich-db-backup-1700000000000.sql.gz"] /\
  calls (final (handleBackupDatabase example_env orphan_fs
                  (clean_run [PgdumpStderr (js "NOTICE")] [] []))) =
    [CCreateWriteStream (js "upload/backups/immich-db-backup-1700000000000.sql.gz.tmp");
     CRename (js "upload/backups/immich-db-backup-1700000000000.sql.gz.tmp")
             (js "upload/backups/immich-db-backup-1700000000000.sql.gz");
     CReaddir (js "upload/backups");
     CUnlink (js "upload/backups/immich-db-backup-1650000000000.sql.gz.tmp")].
Proof. repeat split; reflexivity. Qed.

(** C1 as stated fails, in two ways. Both stages exit with status zero,
    in order, but the rename is refused: the run returns FAILED and the
    temporary file stays. And both stages exit with status zero, but the
    exit of the compressor is seen first, when [pgdump.exitCode] is still
    [null]: nothing is renamed, the promise never settles, and the temporary
    file stays. *)
Lemma both_stages_succeed_counterexample :
  (result (handleBackupDatabase jammed_env orphan_fs (clean_run [] [] [])) = Returns FAILED /\
   calls (final (handleBackupDatabase jammed_env orphan_fs (clean_run [] [] []))) =
     [CCreateWriteStream (js "upload/backups/immich-db-backup-1700000000000.sql.gz.tmp");
      CRename (js "upload/backups/immich-db-backup-1700000000000.sql.gz.tmp")
              (js "upload/backups/immich-db-backup-1700000000000.sql.gz")] /\
   fs (final (handleBackupDatabase jammed_env orphan_fs (clean_run [] [] []))) =
     [js "upload/backups/immich-db-backup-1600000000000.sql.gz";
      js "upload/backups/immich-db-backup-1650000000000.sql.gz.tmp";
      js "upload/backups/immich-db-backup-1700000000000.sql.gz.tmp"]) /\
  (pgdump_exits [GzipExit (Some 0%Z); PgdumpExit (Some 0%Z)] = [Some 0%Z] /\
   gzip_exits [GzipExit (Some 0%Z); PgdumpExit (Some 0%Z)] = [Some 0%Z] /\
   result (handleBackupDatabase example_env orphan_fs
             [GzipExit (Some 0%Z); PgdumpExit (Some 0%Z)]) = Hangs /\
   calls (final (handleBackupDatabase example_env orphan_fs
                   [GzipExit (Some 0%Z); PgdumpExit (Some 0%Z)])) =
     [CCreateWriteStream (js "upload/backups/immich-db-backup-1700000000000.sql.gz.tmp")] /\
   fs (final (handleBackupDatabase example_env orphan_fs
                [GzipExit (Some 0%Z); PgdumpExit (Some 0%Z)])) =
     [js "upload/backups/immich-db-backup-1600000000000.sql.gz";
      js "upload/backups/immich-db-backup-1650000000000.sql.gz.tmp";
      js "upload/backups/immich-db-backup-1700000000000.sql.gz.tmp"]).
Proof. repeat split; reflexivity. Qed.

(** * Further properties of the service *)

(** ** Runs that fail *)

Lemma nonzero_false c : nonzero c = false <-> c = Some 0%Z.
Proof.
  destruct c as [z|]; simpl; [|split; discriminate].
  rewrite negb_false_iff, Z.eqb_eq. split; congruence.
Qed.

(** An event that does not reach the rename leaves files and calls alone. *)
Lemma handle_no_publish E f c p ev :
  match ev with
  | GzipExit x => nonzero x = true \/ nonzero (pgdump_exitCode p) = true
  | _ => True
  end ->
  Unpublished f c p -> Unpublished f c (handle E p ev).
Proof.
  unfold Unpublished. intros Hev (S & F & C).
  destruct ev as [e|e|d|d|x|x]; cbn [handle].
  - repeat split; [now apply settle_rejected | exact F | exact C].
  - repeat split; [now apply settle_rejected | exact F | exact C].
  - repeat split; assumption.
  - repeat split; assumption.
  - destruct (nonzero x).
    + cbn [on_world settled world log fs calls reject settle].
      repeat split; [|exact F|exact C].
      cbn [settled]. destruct (settled p); congruence.
    + cbn [pgdumpLogs]. destruct (negb (str_eqb (pgdumpLogs p) []));
        cbn [on_world settled world log fs calls]; repeat split; assumption.
  - destruct (nonzero x) eqn:Nx.
    + cbn [on_world settled world log fs calls reject settle].
      repeat split; [|exact F|exact C].
      cbn [settled]. destruct (settled p); congruence.
    + destruct Hev as [Hev|Hev]; [discriminate|]. rewrite Hev.
      cbn [on_world settled world log fs calls]. repeat split; assumption.
Qed.

Lemma In_gzip_exits events c : In c (gzip_exits events) <-> In (GzipExit c) events.
Proof.
  unfold gzip_exits. rewrite in_flat_map. split.
  - intros (ev & Hev & Hc). destruct ev; try contradiction.
    destruct Hc as [->|[]]. assumption.
  - intros H. exists (GzipExit c). split; [assumption | now left].
Qed.

Lemma fold_no_gzip_success E f c events : forall p,
  (forall x, In (GzipExit x) events -> nonzero x = true) ->
  Unpublished f c p -> Unpublished f c (fold_left (handle E) events p).
Proof.
  induction events as [|ev events IH]; intros p H U; simpl; [assumption|].
  apply IH; [intros x Hx; apply H; now right|].
  apply handle_no_publish; [|assumption].
  destruct ev; try exact I. left. apply H. now left.
Qed.

Lemma handle_gzip_exit_settles E p c :
  nonzero c = true -> settled (handle E p (GzipExit c)) <> Pending.
Proof.
  intros H. cbn [handle]. rewrite H. cbn [on_world settled].
  apply settle_not_pending. discriminate.
Qed.

Lemma pipeline_unpiped E fs0 events :
  piped E = false ->
  exists r l,
    pipeline E fs0 events =
    {| world := {| fs := createWriteStream (backupFilePath E) fs0;
                   logs := LDebug (js "Database Backup Started") :: l;
                   calls := [CCreateWriteStream (backupFilePath E)] |};
       settled := RejectedWith r; pgdump_exitCode := None;
       pgdumpLogs := []; gzipLogs := [] |}.
Proof.
  unfold piped, pipeline, executor. intros H.
  destruct (gzip_stdout E), (pgdump_stderr E), (pgdump_stdout E), (gzip_stderr E);
    try discriminate; cbn [negb orb andb];
    eexists; eexists; reflexivity.
Qed.

(** A run whose child processes lack a pipe fails at once: it returns
    FAILED whatever the processes emit, calls nothing but
    [createWriteStream], and leaves its temporary file behind. *)
Theorem spawn_failure_fails_run E fs0 events :
  piped E = false ->
  result (handleBackupDatabase E fs0 events) = Returns FAILED /\
  handleBackupDatabase E fs0 events = handleBackupDatabase E fs0 [] /\
  calls (final (handleBackupDatabase E fs0 events)) =
    [CCreateWriteStream (backupFilePath E)] /\
  In (backupFilePath E) (fs (final (handleBackupDatabase E fs0 events))).
Proof.
  intros H.
  assert (Eq : pipeline E fs0 events = pipeline E fs0 []).
  { unfold pipeline. destruct (executor E _) as [p [|]] eqn:X; [|reflexivity].
    exfalso. unfold piped in H.
    destruct (executor_cases E (log (LDebug (js "Database Backup Started"))
                                    {| fs := fs0; logs := []; calls := [] |}))
      as [(q & Hq & _)|[Hp _]]; [congruence|]. unfold piped in Hp. congruence. }
  destruct (pipeline_unpiped E fs0 events H) as (r & l & P).
  rewrite !handleBackupDatabase_pipeline. cbv zeta. rewrite <- Eq, P.
  cbn [settled result final world log calls fs].
  repeat split. apply createWriteStream_In.
Qed.

Lemma spawn_failure_fails_run_witness :
  result (handleBackupDatabase unpiped_env orphan_fs (clean_run [] [] [])) = Returns FAILED /\
  handleBackupDatabase unpiped_env orphan_fs (clean_run [] [] []) =
    handleBackupDatabase unpiped_env orphan_fs [] /\
  calls (final (handleBackupDatabase unpiped_env orphan_fs (clean_run [] [] []))) =
    [CCreateWriteStream (backupFilePath unpiped_env)] /\
  In (backupFilePath unpiped_env)
     (fs (final (handleBackupDatabase unpiped_env orphan_fs (clean_run [] [] [])))).
Proof.
  apply (@spawn_failure_fails_run unpiped_env orphan_fs (clean_run [] [] [])).
  reflexivity.
Defined.

(** When the compressor exits with a non-zero status (or is ended by a
    signal), the run returns FAILED, renames nothing and leaves the files as
    they were after the creation of its temporary file, whatever the
    producer does. *)
Theorem compressor_failure_fails_run E fs0 events c :
  gzip_exits events = [c] -> nonzero c = true ->
  result (handleBackupDatabase E fs0 events) = Returns FAILED /\
  calls (final (handleBackupDatabase E fs0 events)) =
    [CCreateWriteStream (backupFilePath E)] /\
  fs (final (handleBackupDatabase E fs0 events)) =
    createWriteStream (backupFilePath E) fs0.
Proof.
  intros Hex Hc.
  destruct (piped E) eqn:Hp.
  - assert (Hall : forall x, In (GzipExit x) events -> nonzero x = true).
    { intros x H. apply In_gzip_exits in H. rewrite Hex in H.
      destruct H as [<-|[]]. exact Hc. }
    assert (Hin : In (GzipExit c) events) by (apply In_gzip_exits; rewrite Hex; now left).
    rewrite handleBackupDatabase_pipeline. cbv zeta.
    unfold pipeline. rewrite executor_piped by assumption.
    match goal with |- context [fold_left (handle E) events ?p] => set (p0 := p) end.
    assert (U0 : Unpublished (createWriteStream (backupFilePath E) fs0)
                             [CCreateWriteStream (backupFilePath E)] p0)
      by (repeat split; discriminate).
    destruct (@fold_no_gzip_success E _ _ events p0 Hall U0) as (NF & F & C).
    assert (NP : settled (fold_left (handle E) events p0) <> Pending).
    { apply in_split in Hin as (pre & post & ->).
      rewrite fold_left_app. cbn [fold_left].
      rewrite fold_handle_settled; now apply handle_gzip_exit_settles. }
    destruct (settled (fold_left (handle E) events p0)); try congruence.
    cbn [result final log fs calls]. auto.
  - apply not_true_iff_false in Hp. apply not_true_iff_false in Hp.
    destruct (@spawn_failure_fails_run E fs0 events Hp) as (R & _ & C & _).
    split; [exact R|]. split; [exact C|].
    destruct (pipeline_unpiped E fs0 events Hp) as (r & l & P).
    rewrite handleBackupDatabase_pipeline. cbv zeta. rewrite P. reflexivity.
Qed.

Lemma compressor_failure_fails_run_witness :
  result (handleBackupDatabase example_env orphan_fs
            [PgdumpExit (Some 0%Z); GzipExit (Some 1%Z)]) = Returns FAILED /\
  calls (final (handleBackupDatabase example_env orphan_fs
                  [PgdumpExit (Some 0%Z); GzipExit (Some 1%Z)])) =
    [CCreateWriteStream (backupFilePath example_env)] /\
  fs (final (handleBackupDatabase example_env orphan_fs
               [PgdumpExit (Some 0%Z); GzipExit (Some 1%Z)])) =
    createWriteStream (backupFilePath example_env) orphan_fs.
Proof.
  apply (@compressor_failure_fails_run example_env orphan_fs
           [PgdumpExit (Some 0%Z); GzipExit (Some 1%Z)] (Some 1%Z)); reflexivity.
Defined.

(** ** What a fulfilled promise tells *)

Lemma handle_fulfils E p ev :
  settled (handle E p ev) = Fulfilled ->
  settled p = Fulfilled \/
  (settled p = Pending /\ ev = GzipExit (Some 0%Z) /\ pgdump_exitCode p = Some 0%Z).
Proof.
  destruct ev as [e|e|d|d|x|x]; cbn [handle].
  - intros H. apply settle_rejected_fulfilled in H. auto.
  - intros H. apply settle_rejected_fulfilled in H. auto.
  - auto.
  - auto.
  - destruct (nonzero x).
    + cbn [on_world settled reject settle]. destruct (settled p); try discriminate; auto.
    + cbn [pgdumpLogs]. destruct (negb (str_eqb (pgdumpLogs p) [])); auto.
  - destruct (nonzero x) eqn:Nx.
    + cbn [on_world settled reject settle]. destruct (settled p); try discriminate; auto.
    + destruct (nonzero (pgdump_exitCode p)) eqn:Np; [auto|].
      apply nonzero_false in Nx, Np. subst x.
      destruct (rename _ _ _ _);
        cbn [resolve reject settle on_world settled];
        destruct (settled p); try discriminate; auto.
Qed.

Lemma handle_exit_code E p ev :
  pgdump_exitCode (handle E p ev) = Some 0%Z ->
  pgdump_exitCode p = Some 0%Z \/ ev = PgdumpExit (Some 0%Z).
Proof.
  destruct ev as [e|e|d|d|x|x]; cbn [handle]; auto.
  - destruct (nonzero x) eqn:Nx.
    + cbn [on_world reject settle pgdump_exitCode]. intros ->. discriminate.
    + cbn [pgdumpLogs]. apply nonzero_false in Nx. subst. auto.
  - destruct (nonzero x); [auto|].
    destruct (nonzero (pgdump_exitCode p)); [auto|].
    destruct (rename _ _ _ _); auto.
Qed.

Lemma fold_exit_code E events : forall p,
  pgdump_exitCode (fold_left (handle E) events p) = Some 0%Z ->
  pgdump_exitCode p = Some 0%Z \/ In (PgdumpExit (Some 0%Z)) events.
Proof.
  induction events as [|ev events IH]; intros p H; simpl in *; [auto|].
  destruct (IH _ H) as [H'|H']; [|auto].
  destruct (handle_exit_code E p ev H') as [H''| ->]; auto.
Qed.

Lemma fold_fulfils E events : forall p,
  settled p = Pending -> pgdump_exitCode p = None ->
  settled (fold_left (handle E) events p) = Fulfilled ->
  exists before after,
    events = before ++ GzipExit (Some 0%Z) :: after /\
    In (PgdumpExit (Some 0%Z)) before.
Proof.
  induction events as [|ev events IH] using rev_ind; intros p S X H.
  - simpl in H. congruence.
  - rewrite fold_left_app in H. cbn [fold_left] in H.
    apply handle_fulfils in H as [H|(_ & -> & Hx)].
    + destruct (IH p S X H) as (b & a & -> & Hb).
      exists b, (a ++ [ev]). split; [|assumption].
      now rewrite <- app_assoc.
    + exists events, []. split; [reflexivity|].
      apply fold_exit_code in Hx as [Hx|Hx]; [congruence | assumption].
Qed.

(** A run that reaches the sweep, and so every run that returns SUCCESS,
    had its pipes, saw the producer exit with status zero and, after that,
    the compressor exit with status zero. *)
Theorem success_needs_both_zero E fs0 events :
  result (handleBackupDatabase E fs0 events) = Returns SUCCESS ->
  piped E = true /\
  exists before after,
    events = before ++ GzipExit (Some 0%Z) :: after /\
    In (PgdumpExit (Some 0%Z)) before.
Proof.
  rewrite handleBackupDatabase_pipeline. cbv zeta.
  destruct (settled (pipeline E fs0 events)) eqn:S; try discriminate. intros _.
  destruct (piped E) eqn:Hp.
  - split; [reflexivity|]. unfold pipeline in S.
    rewrite executor_piped in S by assumption.
    eapply fold_fulfils; [| |exact S]; reflexivity.
  - destruct (pipeline_unpiped E fs0 events Hp) as (r & l & P).
    rewrite P in S. discriminate.
Qed.

Lemma success_needs_both_zero_witness :
  piped example_env = true /\
  exists before after,
    clean_run [PgdumpStderr (js "NOTICE")] [] [] = before ++ GzipExit (Some 0%Z) :: after /\
    In (PgdumpExit (Some 0%Z)) before.
Proof.
  apply (@success_needs_both_zero example_env orphan_fs
           (clean_run [PgdumpStderr (js "NOTICE")] [] [])).
  reflexivity.
Defined.

(** Once the promise is rejected, nothing that is emitted later turns the
    run into a success: with more events the run still returns FAILED. *)
Theorem failure_is_final E fs0 events more :
  result (handleBackupDatabase E fs0 events) = Returns FAILED ->
  result (handleBackupDatabase E fs0 (events ++ more)) = Returns FAILED.
Proof.
  rewrite !handleBackupDatabase_pipeline. cbv zeta.
  destruct (settled (pipeline E fs0 events)) eqn:S; try discriminate.
  - destruct (cleanupDatabaseBackups E _) as [w [|]]; discriminate.
  - intros _.
    assert (S' : settled (pipeline E fs0 (events ++ more)) = RejectedWith reason).
    { unfold pipeline in *. destruct (executor E _) as [p [|]]; [|assumption].
      rewrite fold_left_app, fold_handle_settled; rewrite S; [reflexivity | discriminate]. }
    rewrite S'. reflexivity.
Qed.

Lemma failure_is_final_witness :
  result (handleBackupDatabase example_env orphan_fs
            ([GzipError (js "EPIPE")] ++ clean_run [] [] [])) = Returns FAILED.
Proof.
  apply (@failure_is_final example_env orphan_fs [GzipError (js "EPIPE")] (clean_run [] [] [])).
  reflexivity.
Defined.

(** ** Runs that do not publish *)

Lemma fold_no_exit E f c events : forall p,
  forallb (fun ev => negb (is_exit ev)) events = true ->
  Unpublished f c p -> Unpublished f c (fold_left (handle E) events p).
Proof.
  induction events as [|ev events IH]; intros p H U; [assumption|].
  cbn [forallb] in H. apply andb_true_iff in H as [Hev H]. cbn [fold_left].
  apply IH; [assumption|]. apply handle_no_publish; [|assumption].
  destruct ev; try exact I. discriminate.
Qed.

(** When the rename is refused, a run in which both stages exit with status
    zero, in order, returns FAILED: the rename was asked for, the files are
    as they were after the creation of the temporary file, and no sweep
    follows. *)
Theorem publish_failure_fails_run E fs0 pre mid post :
  piped E = true ->
  forallb is_stderr pre = true -> forallb is_stderr mid = true ->
  forallb (fun ev => negb (is_exit ev)) post = true ->
  rename_denied E (backupFilePath E)
                (replace_first (js ".tmp") [] (backupFilePath E)) = true ->
  result (handleBackupDatabase E fs0 (clean_run pre mid post)) = Returns FAILED /\
  calls (final (handleBackupDatabase E fs0 (clean_run pre mid post))) =
    [CCreateWriteStream (backupFilePath E);
     CRename (backupFilePath E) (replace_first (js ".tmp") [] (backupFilePath E))] /\
  fs (final (handleBackupDatabase E fs0 (clean_run pre mid post))) =
    createWriteStream (backupFilePath E) fs0.
Proof.
  intros Hp Hpre Hmid Hpost Hden.
  rewrite handleBackupDatabase_pipeline. cbv zeta.
  unfold pipeline. rewrite executor_piped by assumption.
  unfold clean_run. rewrite fold_left_app. cbn [fold_left]. rewrite fold_left_app.
  cbn [fold_left].
  match goal with |- context [fold_left (handle E) pre ?p] => set (p0 := p) end.
  destruct (@fold_stderr E pre p0 Hpre) as (W1 & S1 & X1).
  set (p1 := fold_left (handle E) pre p0) in *.
  destruct (handle_pgdump_zero E p1) as (F2 & C2 & S2 & X2).
  set (p2 := handle E p1 (PgdumpExit (Some 0%Z))) in *.
  destruct (@fold_stderr E mid p2 Hmid) as (W3 & S3 & X3).
  set (p3 := fold_left (handle E) mid p2) in *.
  assert (G : settled (handle E p3 (GzipExit (Some 0%Z))) = RejectedWith rename_error /\
              calls (world (handle E p3 (GzipExit (Some 0%Z)))) =
                calls (world p3) ++
                [CRename (backupFilePath E)
                         (replace_first (js ".tmp") [] (backupFilePath E))] /\
              fs (world (handle E p3 (GzipExit (Some 0%Z)))) = fs (world p3)).
  { cbn [handle nonzero Z.eqb negb]. rewrite X3, X2.
    cbn [nonzero Z.eqb negb on_world world call fs]. unfold rename. rewrite Hden.
    cbn [reject settle on_world world log fs calls settled].
    rewrite S3, S2, S1. auto. }
  destruct G as (S4 & C4 & F4).
  set (p4 := handle E p3 (GzipExit (Some 0%Z))) in *.
  assert (U : Unpublished (fs (world p4)) (calls (world p4)) p4)
    by (repeat split; rewrite S4; discriminate).
  destruct (@fold_no_exit E _ _ post p4 Hpost U) as (_ & F5 & C5).
  assert (S5 : settled (fold_left (handle E) post p4) = RejectedWith rename_error)
    by (rewrite fold_handle_settled; rewrite S4; [reflexivity | discriminate]).
  rewrite S5. cbn [result final log fs calls].
  rewrite F5, C5, F4, C4, W3, C2, F2, W1. auto.
Qed.

Lemma publish_failure_fails_run_witness :
  result (handleBackupDatabase jammed_env orphan_fs (clean_run [] [] [])) = Returns FAILED /\
  calls (final (handleBackupDatabase jammed_env orphan_fs (clean_run [] [] []))) =
    [CCreateWriteStream (backupFilePath jammed_env);
     CRename (backupFilePath jammed_env)
             (replace_first (js ".tmp") [] (backupFilePath jammed_env))] /\
  fs (final (handleBackupDatabase jammed_env orphan_fs (clean_run [] [] []))) =
    createWriteStream (backupFilePath jammed_env) orphan_fs.
Proof.
  apply (@publish_failure_fails_run jammed_env orphan_fs [] [] []); reflexivity.
Defined.

(** When the exit of the compressor with status zero is handled before the
    exit of the producer, the run never returns, although both stages exit
    with status zero and no error occurs: nothing is renamed and the
    temporary file stays. *)
Theorem late_producer_hangs E fs0 pre mid post :
  piped E = true ->
  forallb is_stderr pre = true -> forallb is_stderr mid = true ->
  forallb is_stderr post = true ->
  result (handleBackupDatabase E fs0 (late_producer_run pre mid post)) = Hangs /\
  calls (final (handleBackupDatabase E fs0 (late_producer_run pre mid post))) =
    [CCreateWriteStream (backupFilePath E)] /\
  fs (final (handleBackupDatabase E fs0 (late_producer_run pre mid post))) =
    createWriteStream (backupFilePath E) fs0.
Proof.
  intros Hp Hpre Hmid Hpost.
  rewrite handleBackupDatabase_pipeline. cbv zeta.
  unfold pipeline. rewrite executor_piped by assumption.
  unfold late_producer_run. rewrite fold_left_app. cbn [fold_left]. rewrite fold_left_app.
  cbn [fold_left].
  match goal with |- context [fold_left (handle E) pre ?p] => set (p0 := p) end.
  destruct (@fold_stderr E pre p0 Hpre) as (W1 & S1 & X1).
  set (p1 := fold_left (handle E) pre p0) in *.
  assert (G : world (handle E p1 (GzipExit (Some 0%Z))) =
                log (LError (js "Gzip exited with code 0 but pgdump exited with "
                             ++ show_code None)) (world p1) /\
              settled (handle E p1 (GzipExit (Some 0%Z))) = Pending /\
              pgdump_exitCode (handle E p1 (GzipExit (Some 0%Z))) = None).
  { cbn [handle nonzero Z.eqb negb]. rewrite X1. cbn [p0 pgdump_exitCode nonzero].
    cbn [on_world world settled pgdump_exitCode]. rewrite S1, X1. auto. }
  destruct G as (W2 & S2 & X2).
  set (p2 := handle E p1 (GzipExit (Some 0%Z))) in *.
  destruct (@fold_stderr E mid p2 Hmid) as (W3 & S3 & X3).
  set (p3 := fold_left (handle E) mid p2) in *.
  destruct (handle_pgdump_zero E p3) as (F4 & C4 & S4 & X4).
  set (p4 := handle E p3 (PgdumpExit (Some 0%Z))) in *.
  destruct (@fold_stderr E post p4 Hpost) as (W5 & S5 & X5).
  rewrite S5, S4, S3, S2. cbn [result final].
  rewrite W5, F4, C4, W3, W2, W1. auto.
Qed.

Lemma late_producer_hangs_witness :
  result (handleBackupDatabase example_env orphan_fs
            (late_producer_run [] [GzipStderr (js "warning")] [])) = Hangs /\
  calls (final (handleBackupDatabase example_env orphan_fs
                  (late_producer_run [] [GzipStderr (js "warning")] []))) =
    [CCreateWriteStream (backupFilePath example_env)] /\
  fs (final (handleBackupDatabase example_env orphan_fs
               (late_producer_run [] [GzipStderr (js "warning")] []))) =
    createWriteStream (backupFilePath example_env) orphan_fs.
Proof.
  apply (@late_producer_hangs example_env orphan_fs [] [GzipStderr (js "warning")] []);
    reflexivity.
Defined.

(** ** A failed run and the sweep after the next one *)

Lemma digits_no_slash d :
  forallb is_digit d = true -> existsb (ascii_eqb "/"%char) d = false.
Proof.
  induction d as [|c d IH]; simpl; intros H; [reflexivity|].
  apply andb_true_iff in H as [Hc H]. rewrite IH by assumption. rewrite orb_false_r.
  unfold ascii_eqb. apply N.eqb_neq. apply is_digit_range in Hc.
  change (code_unit "/"%char) with 47%N. lia.
Qed.

Lemma artifact_is_file_name d suffix :
  forallb is_digit d = true -> existsb (ascii_eqb "/"%char) suffix = false ->
  is_file_name (js "immich-db-backup-" ++ d ++ suffix) = true.
Proof.
  intros Hd Hs. unfold is_file_name. apply andb_true_iff. split; [reflexivity|].
  rewrite !existsb_app, (digits_no_slash _ Hd), Hs. reflexivity.
Qed.

Lemma temporary_listed E fs0 :
  In (backupFilePath E) fs0 -> In (temporary E) (readdir (backupsFolder E) fs0).
Proof.
  intros H. apply In_readdir. split; [exact H|].
  apply artifact_is_file_name; [|reflexivity].
  apply all_digits_forallb, decimal_digits.
Qed.

Lemma temporary_well_formed E : well_formed_tmp (temporary E) = true.
Proof.
  apply well_formed_tmp_spec. exists (decimal (now E)).
  split; [apply decimal_digits | reflexivity].
Qed.

Lemma fold_failing_unpublished E f c events : forall p,
  Failing p -> Unpublished f c p ->
  (forall x, In (PgdumpExit x) events -> nonzero x = true) ->
  Unpublished f c (fold_left (handle E) events p).
Proof.
  induction events as [|ev events IH]; intros p F U H; simpl; [assumption|].
  apply IH.
  - apply handle_failing; [assumption|]. intros x ->. apply H. now left.
  - apply handle_no_publish; [|assumption].
    destruct ev; try exact I. right. apply F.
  - intros x Hx. apply H. now right.
Qed.

(** A run whose producer fails does no cleanup of its own: the files are as
    they were after the creation of its temporary file. The temporary file
    has a name that the sweep takes for a failed backup, so that the sweep
    of a later run, if none of its deletions is denied, deletes it. *)
Theorem failed_run_is_swept_later E fs0 events c :
  pgdump_exits events = [c] -> nonzero c = true ->
  distinct fs0 = true ->
  deletable E (final (handleBackupDatabase E fs0 events)) = true ->
  fs (final (handleBackupDatabase E fs0 events)) =
    createWriteStream (backupFilePath E) fs0 /\
  In (backupFilePath E) (fs (final (handleBackupDatabase E fs0 events))) /\
  search_to_end re_failed (temporary E) = true /\
  exists w', cleanupDatabaseBackups E (final (handleBackupDatabase E fs0 events)) = (w', true) /\
             ~ In (backupFilePath E) (fs w').
Proof.
  intros Hex Hc D Hok.
  assert (F : fs (final (handleBackupDatabase E fs0 events)) =
              createWriteStream (backupFilePath E) fs0).
  { rewrite handleBackupDatabase_pipeline. cbv zeta.
    destruct (piped E) eqn:Hp.
    - unfold pipeline. rewrite executor_piped by assumption.
      match goal with |- context [fold_left (handle E) events ?p] => set (p0 := p) end.
      assert (F0 : Failing p0) by (repeat split; discriminate).
      assert (U0 : Unpublished (createWriteStream (backupFilePath E) fs0)
                               [CCreateWriteStream (backupFilePath E)] p0)
        by (repeat split; discriminate).
      assert (Hall : forall x, In (PgdumpExit x) events -> nonzero x = true).
      { intros x H. apply In_pgdump_exits in H. rewrite Hex in H.
        destruct H as [<-|[]]. exact Hc. }
      destruct (@fold_failing_unpublished E _ _ events p0 F0 U0 Hall) as (NF & Fs & _).
      destruct (settled (fold_left (handle E) events p0)); [exact Fs | congruence | exact Fs].
    - destruct (pipeline_unpiped E fs0 events Hp) as (r & l & P). rewrite P. reflexivity. }
  split; [exact F|].
  assert (I : In (backupFilePath E) (fs (final (handleBackupDatabase E fs0 events))))
    by (rewrite F; apply createWriteStream_In).
  split; [exact I|].
  split; [apply well_formed_tmp_search, temporary_well_formed|].
  assert (Dw : distinct (fs (final (handleBackupDatabase E fs0 events))) = true).
  { rewrite F. apply distinct_NoDup, createWriteStream_NoDup. now apply distinct_NoDup. }
  eexists. split; [now apply cleanup_ok|]. cbn [fs].
  rewrite In_without. intros [_ H]. apply H.
  apply (in_map (path_join (backupsFolder E)) _ (temporary E)).
  unfold candidates, toDelete. apply in_or_app. right.
  apply In_failedBackups. split; [now apply temporary_listed|].
  apply well_formed_tmp_search, temporary_well_formed.
Qed.

Lemma failed_run_is_swept_later_witness :
  fs (final (handleBackupDatabase example_env orphan_fs [PgdumpExit (Some 1%Z)])) =
    createWriteStream (backupFilePath example_env) orphan_fs /\
  In (backupFilePath example_env)
     (fs (final (handleBackupDatabase example_env orphan_fs [PgdumpExit (Some 1%Z)]))) /\
  search_to_end re_failed (temporary example_env) = true /\
  exists w', cleanupDatabaseBackups example_env
               (final (handleBackupDatabase example_env orphan_fs [PgdumpExit (Some 1%Z)]))
             = (w', true) /\
             ~ In (backupFilePath example_env) (fs w').
Proof.
  apply (@failed_run_is_swept_later example_env orphan_fs [PgdumpExit (Some 1%Z)] (Some 1%Z));
    reflexivity.
Defined.

(** ** The time in the name *)

Lemma uint_chars_length u :
  N.of_nat (List.length (uint_chars u)) = DecimalPos.Unsigned.usize u.
Proof.
  induction u; cbn [uint_chars List.length DecimalPos.Unsigned.usize];
    rewrite ?Nat2N.inj_succ, ?IHu; reflexivity.
Qed.

Lemma digits_value_uint u :
  digits_value (uint_chars u) = DecimalPos.Unsigned.of_lu (Decimal.rev u).
Proof.
  induction u; [reflexivity|..];
    cbn [uint_chars]; rewrite digits_value_cons, uint_chars_length;
    unfold Decimal.rev; cbn [Decimal.revapp];
    rewrite DecimalPos.Unsigned.of_lu_revapp, IHu;
    cbn [DecimalPos.Unsigned.of_lu];
    match goal with |- (?k * _ + _ = _)%N =>
      let v := eval vm_compute in k in change k with v
    end; lia.
Qed.

Lemma digits_value_decimal n : digits_value (decimal n) = n.
Proof.
  unfold decimal. rewrite digits_value_uint, <- DecimalPos.Unsigned.of_uint_alt.
  apply DecimalN.Unsigned.of_to.
Qed.

(** ** What a sweep removes and what it keeps *)

Lemma unlink_each_removes E : forall del w,
  (forall p, In p (fs (fst (unlink_each E del w))) -> In p (fs w)) /\
  (forall p, In p (fs w) -> ~ In p (fs (fst (unlink_each E del w))) ->
             In p (map (path_join (backupsFolder E)) del)).
Proof.
  induction del as [|f del IH]; intros w; simpl.
  - split; [auto | intros p H N; contradiction].
  - unfold unlink. cbn [call fs].
    destruct (unlink_denied E _); [split; [auto | intros p H N; contradiction]|].
    destruct (mem _ (fs w)); [|split; [auto | intros p H N; contradiction]].
    destruct (IH (set_fs (remove_path (path_join (backupsFolder E) f) (fs w))
                         (call (CUnlink (path_join (backupsFolder E) f)) w))) as [I1 I2].
    cbn [set_fs fs] in I1, I2. split.
    + intros p Hp. apply I1 in Hp. unfold remove_path in Hp.
      apply filter_In in Hp. tauto.
    + intros p Hp Np.
      destruct (str_eqb (path_join (backupsFolder E) f) p) eqn:Ep.
      * apply str_eqb_eq in Ep. now left.
      * right. apply I2; [|assumption]. unfold remove_path. apply filter_In.
        split; [assumption | now rewrite Ep].
Qed.

(** A sweep creates no file, and a file that it removes is an entry of the
    backup folder in whose name one of the two regexes finds a match; this
    holds however the sweep ends. *)
Theorem sweep_removes_only_matches E w :
  (forall p, In p (fs (fst (cleanupDatabaseBackups E w))) -> In p (fs w)) /\
  (forall p, In p (fs w) -> ~ In p (fs (fst (cleanupDatabaseBackups E w))) ->
     exists f, p = path_join (backupsFolder E) f /\
               In f (readdir (backupsFolder E) (fs w)) /\
               (search_to_end re_backup f = true \/ search_to_end re_failed f = true)).
Proof.
  unfold cleanupDatabaseBackups.
  match goal with |- context [unlink_each E ?del ?w0] =>
    destruct (unlink_each_removes E del w0) as [I1 I2];
    destruct (unlink_each E del w0) as [w1 [|]]
  end; cbn [fst log call fs] in *; (split; [exact I1|]);
    intros p Hp Np; apply I2 in Hp; try assumption;
    apply in_map_iff in Hp as (f & <- & Hf); exists f;
    (split; [reflexivity|]); (split; [now apply toDelete_incl in Hf|]);
    unfold toDelete in Hf; apply in_app_or in Hf as [Hf|Hf].
  - left. apply In_slice, In_backups in Hf. tauto.
  - right. apply In_failedBackups in Hf. tauto.
  - left. apply In_slice, In_backups in Hf. tauto.
  - right. apply In_failedBackups in Hf. tauto.
Qed.

Lemma filter_none (A : Type) (f : A -> bool) l :
  (forall x, In x l -> f x = false) -> filter f l = [].
Proof.
  induction l as [|x l IH]; simpl; intros H; [reflexivity|].
  rewrite (H x) by now left. apply IH. intros y Hy. apply H. now right.
Qed.

(** After a sweep with keep-count [k >= 0] none of whose deletions is
    denied, the names of the folder taken for backups are the first [k] of
    [backups], and no name is taken for a failed backup. *)
Lemma after_sweep E w :
  distinct (fs w) = true -> (0 <= keepLastAmount (backup E))%Z ->
  (forall f, In f (filter (search_to_end re_backup)
                          (readdir (backupsFolder E) (without E (candidates E w) (fs w)))) <->
             In f (firstn (Z.to_nat (keepLastAmount (backup E)))
                          (backups (readdir (backupsFolder E) (fs w))))) /\
  failedBackups (readdir (backupsFolder E) (without E (candidates E w) (fs w))) = [].
Proof.
  intros D Hk. apply distinct_NoDup in D.
  unfold without. rewrite readdir_filter.
  set (files := readdir (backupsFolder E) (fs w)) in *.
  set (k := Z.to_nat (keepLastAmount (backup E))).
  assert (NDb : NoDup (backups files)).
  { eapply Permutation_NoDup; [apply backups_perm|].
    apply NoDup_filter. now apply readdir_NoDup. }
  assert (C : forall g, In g (candidates E w) <->
                        In g (skipn k (backups files)) \/ In g (failedBackups files)).
  { intros g. unfold candidates, toDelete. fold files.
    rewrite slice_skipn by assumption. apply in_app_iff. }
  split.
  - intros f. rewrite !filter_In, negb_true_iff, mem_not_In, C. split.
    + intros [[Hf Hn] S].
      assert (B : In f (backups files)) by (apply In_backups; auto).
      rewrite <- (firstn_skipn k (backups files)) in B.
      apply in_app_or in B as [B|B]; [assumption | tauto].
    + intros H.
      assert (B : In f (backups files))
        by (rewrite <- (firstn_skipn k (backups files)); apply in_or_app; now left).
      apply In_backups in B as [Hf S]. split; [|assumption]. split; [assumption|].
      intros [H'|H'].
      * exact (NoDup_firstn_skipn _ _ NDb H H').
      * apply In_failedBackups in H' as [_ H']. exact (artifact_kinds_disjoint _ S H').
  - unfold failedBackups. apply filter_none. intros f Hf.
    apply filter_In in Hf as [Hf Hn]. apply negb_true_iff, mem_not_In in Hn.
    destruct (search_to_end re_failed f) eqn:S; [|reflexivity].
    exfalso. apply Hn, C. right. apply In_failedBackups. auto.
Qed.

(** Whatever the timestamps look like, a sweep with keep-count [k >= 0]
    none of whose deletions is denied keeps [min n k] of the [n] names it
    takes for backups, and every name it keeps is greater, as text, than
    every name it deletes. *)
Theorem sweep_keeps_greatest_names E w :
  distinct (fs w) = true -> deletable E w = true ->
  (0 <= keepLastAmount (backup E))%Z ->
  exists w', cleanupDatabaseBackups E w = (w', true) /\
    List.length (filter (search_to_end re_backup) (readdir (backupsFolder E) (fs w'))) =
      Nat.min (List.length (filter (search_to_end re_backup)
                                   (readdir (backupsFolder E) (fs w))))
              (Z.to_nat (keepLastAmount (backup E))) /\
    (forall a b,
       In a (filter (search_to_end re_backup) (readdir (backupsFolder E) (fs w'))) ->
       In b (filter (search_to_end re_backup) (readdir (backupsFolder E) (fs w))) ->
       ~ In b (filter (search_to_end re_backup) (readdir (backupsFolder E) (fs w'))) ->
       str_ltb b a = true).
Proof.
  intros D Hok Hk. eexists. split; [now apply cleanup_ok|]. cbn [fs].
  destruct (after_sweep E w D Hk) as [K _].
  pose proof D as ND. apply distinct_NoDup in ND.
  set (files := readdir (backupsFolder E) (fs w)) in *.
  set (k := Z.to_nat (keepLastAmount (backup E))) in *.
  set (kept := filter (search_to_end re_backup)
                 (readdir (backupsFolder E) (without E (candidates E w) (fs w)))) in *.
  assert (NDb : NoDup (backups files)).
  { eapply Permutation_NoDup; [apply backups_perm|].
    apply NoDup_filter. now apply readdir_NoDup. }
  split.
  - assert (P : Permutation kept (firstn k (backups files))).
    { apply NoDup_Permutation.
      - apply NoDup_filter, readdir_NoDup. unfold without. now apply NoDup_filter.
      - rewrite <- (firstn_skipn k (backups files)) in NDb.
        now apply NoDup_app_remove_r in NDb.
      - exact K. }
    rewrite (Permutation_length P), length_firstn.
    rewrite (Permutation_length (backups_perm files)). apply Nat.min_comm.
  - intros a b Ha Hb Hn. apply K in Ha.
    assert (Hs : In b (skipn k (backups files))).
    { apply (Permutation_in _ (backups_perm files)) in Hb.
      rewrite <- (firstn_skipn k (backups files)) in Hb.
      apply in_app_or in Hb as [Hb|Hb]; [|assumption]. apply K in Hb. contradiction. }
    assert (Hle : str_leb b a = true).
    { pose proof (backups_sorted files) as S.
      rewrite <- (firstn_skipn k (backups files)) in S.
      exact (StronglySorted_app_inv _ _ S a b Ha Hs). }
    unfold str_leb in Hle. apply negb_true_iff in Hle.
    destruct (str_ltb b a) eqn:Hba; [reflexivity|].
    assert (a = b) by now apply str_ltb_total. subst.
    exfalso. exact (NoDup_firstn_skipn _ _ NDb Ha Hs).
Qed.

Lemma sweep_keeps_greatest_names_witness :
  exists w', cleanupDatabaseBackups keep_one_env mixed_width_world = (w', true) /\
    List.length (filter (search_to_end re_backup)
                        (readdir (backupsFolder keep_one_env) (fs w'))) =
      Nat.min (List.length (filter (search_to_end re_backup)
                                   (readdir (backupsFolder keep_one_env)
                                            (fs mixed_width_world))))
              (Z.to_nat (keepLastAmount (backup keep_one_env))) /\
    (forall a b,
       In a (filter (search_to_end re_backup)
                    (readdir (backupsFolder keep_one_env) (fs w'))) ->
       In b (filter (search_to_end re_backup)
                    (readdir (backupsFolder keep_one_env) (fs mixed_width_world))) ->
       ~ In b (filter (search_to_end re_backup)
                      (readdir (backupsFolder keep_one_env) (fs w'))) ->
       str_ltb b a = true).
Proof.
  apply (@sweep_keeps_greatest_names keep_one_env mixed_width_world); try reflexivity.
  simpl. lia.
Defined.

(** A sweep leaves nothing for a second one: after a sweep with keep-count
    [k >= 0] none of whose deletions is denied, the same sweep finds no
    candidate, deletes nothing and reports 0 deletions. *)
Theorem second_sweep_deletes_nothing E w :
  distinct (fs w) = true -> deletable E w = true ->
  (0 <= keepLastAmount (backup E))%Z ->
  exists w', cleanupDatabaseBackups E w = (w', true) /\
    candidates E w' = [] /\
    cleanupDatabaseBackups E w' =
    ({| fs := fs w';
        logs := logs w' ++ [cleanup_started; cleanup_finished 0];
        calls := calls w' ++ [CReaddir (backupsFolder E)] |}, true).
Proof.
  intros D Hok Hk. eexists. split; [now apply cleanup_ok|].
  destruct (after_sweep E w D Hk) as [K F].
  pose proof D as ND. apply distinct_NoDup in ND.
  match goal with |- candidates E ?w1 = [] /\ _ => set (w' := w1) end.
  assert (C : candidates E w' = []).
  { unfold candidates, toDelete. cbn [w' fs]. rewrite F, app_nil_r.
    rewrite slice_skipn by assumption. apply skipn_all2.
    rewrite <- (Permutation_length (backups_perm _)).
    assert (P : Permutation
                  (filter (search_to_end re_backup)
                     (readdir (backupsFolder E) (without E (candidates E w) (fs w))))
                  (firstn (Z.to_nat (keepLastAmount (backup E)))
                          (backups (readdir (backupsFolder E) (fs w))))).
    { apply NoDup_Permutation.
      - apply NoDup_filter, readdir_NoDup. unfold without. now apply NoDup_filter.
      - assert (NDb : NoDup (backups (readdir (backupsFolder E) (fs w)))).
        { eapply Permutation_NoDup; [apply backups_perm|].
          apply NoDup_filter. now apply readdir_NoDup. }
        rewrite <- (firstn_skipn (Z.to_nat (keepLastAmount (backup E)))
                      (backups (readdir (backupsFolder E) (fs w)))) in NDb.
        now apply NoDup_app_remove_r in NDb.
      - exact K. }
    rewrite (Permutation_length P). apply firstn_le_length. }
  split; [exact C|].
  assert (D' : distinct (fs w') = true).
  { apply distinct_NoDup. cbn [w' fs]. unfold without. now apply NoDup_filter. }
  assert (Ok' : deletable E w' = true) by (unfold deletable; rewrite C; reflexivity).
  rewrite (cleanup_ok E w' D' Ok'), C, without_nil. reflexivity.
Qed.

Lemma second_sweep_deletes_nothing_witness :
  exists w', cleanupDatabaseBackups example_env example_world = (w', true) /\
    candidates example_env w' = [] /\
    cleanupDatabaseBackups example_env w' =
    ({| fs := fs w';
        logs := logs w' ++ [cleanup_started; cleanup_finished 0];
        calls := calls w' ++ [CReaddir (backupsFolder example_env)] |}, true).
Proof.
  apply (@second_sweep_deletes_nothing example_env example_world); try reflexivity.
  simpl. lia.
Defined.

(** ** A successful run and its own sweep *)

Lemma rename_elements denied a b fs0 fs1 q :
  rename denied a b fs0 = Some fs1 -> In q fs1 -> q = b \/ (In q fs0 /\ q <> a).
Proof.
  intros H Hq. apply rename_Some in H as [-> _].
  apply in_map_iff in Hq as (x & Hx & Hin). apply filter_In in Hin as [Hin _].
  destruct (str_eqb a x) eqn:E; [now left|]. right. subst q.
  split; [assumption|]. apply str_eqb_neq in E. congruence.
Qed.

Lemma createWriteStream_elements p fs0 q :
  In q (createWriteStream p fs0) -> q = p \/ In q fs0.
Proof.
  unfold createWriteStream. destruct (mem p fs0); [auto|].
  intros H. apply in_app_or in H as [H|[<-|[]]]; auto.
Qed.

(** How a run in which both stages succeed ends, in terms of the files
    after the rename. *)
Lemma clean_run_ends E fs0 pre mid post :
  piped E = true -> distinct fs0 = true ->
  includes (js ".tmp") (backupsFolder E) = false ->
  forallb is_stderr pre = true -> forallb is_stderr mid = true ->
  forallb (fun ev => negb (is_exit ev)) post = true ->
  rename_denied E (backupFilePath E) (published E) = false ->
  (forall q, unlink_denied E q = false) ->
  exists fs1,
    rename (rename_denied E) (backupFilePath E) (published E)
           (createWriteStream (backupFilePath E) fs0) = Some fs1 /\
    NoDup fs1 /\
    result (handleBackupDatabase E fs0 (clean_run pre mid post)) = Returns SUCCESS /\
    fs (final (handleBackupDatabase E fs0 (clean_run pre mid post))) =
      without E (toDelete (keepLastAmount (backup E)) (readdir (backupsFolder E) fs1)) fs1 /\
    calls (final (handleBackupDatabase E fs0 (clean_run pre mid post))) =
      [CCreateWriteStream (backupFilePath E); CRename (backupFilePath E) (published E)]
      ++ CReaddir (backupsFolder E)
      :: unlink_calls E (toDelete (keepLastAmount (backup E)) (readdir (backupsFolder E) fs1)).
Proof.
  intros Hp D Hdir Hpre Hmid Hpost Hren Hdel.
  destruct (@pipeline_clean_run E fs0 pre mid post Hp Hdir Hpre Hmid Hpost Hren)
    as (fs1 & R & F & C & S).
  exists fs1. split; [exact R|].
  assert (ND : NoDup fs1).
  { eapply rename_NoDup; [exact R|].
    apply createWriteStream_NoDup. now apply distinct_NoDup. }
  split; [exact ND|].
  rewrite handleBackupDatabase_pipeline. cbv zeta. rewrite S.
  set (w := log (LDebug (js "Database Backup Success"))
                (world (pipeline E fs0 (clean_run pre mid post)))).
  assert (Fw : fs w = fs1) by exact F.
  assert (Dw : distinct (fs w) = true) by (rewrite Fw; now apply distinct_NoDup).
  assert (Ok : deletable E w = true) by (apply deletable_spec; intros; apply Hdel).
  rewrite (cleanup_ok E w Dw Ok). cbn [result final fs calls].
  unfold candidates. rewrite Fw. cbn [w log calls]. rewrite C. auto.
Qed.

Lemma published_listed E fs1 :
  In (published E) fs1 ->
  In (final_name (decimal (now E))) (readdir (backupsFolder E) fs1).
Proof.
  intros H. apply In_readdir. split; [exact H|].
  apply artifact_is_file_name; [|reflexivity].
  apply all_digits_forallb, decimal_digits.
Qed.

(** With a keep-count of zero, a run in which everything succeeds returns
    SUCCESS and leaves no backup: its own sweep unlinks the artifact that it
    has just published. *)
Theorem keep_count_zero_keeps_nothing E fs0 pre mid post :
  keepLastAmount (backup E) = 0%Z ->
  piped E = true -> distinct fs0 = true ->
  includes (js ".tmp") (backupsFolder E) = false ->
  forallb is_stderr pre = true -> forallb is_stderr mid = true ->
  forallb (fun ev => negb (is_exit ev)) post = true ->
  rename_denied E (backupFilePath E) (published E) = false ->
  (forall q, unlink_denied E q = false) ->
  result (handleBackupDatabase E fs0 (clean_run pre mid post)) = Returns SUCCESS /\
  In (CUnlink (published E))
     (calls (final (handleBackupDatabase E fs0 (clean_run pre mid post)))) /\
  ~ In (published E) (fs (final (handleBackupDatabase E fs0 (clean_run pre mid post)))) /\
  filter (search_to_end re_backup)
    (readdir (backupsFolder E)
       (fs (final (handleBackupDatabase E fs0 (clean_run pre mid post))))) = [].
Proof.
  intros K0 Hp D Hdir Hpre Hmid Hpost Hren Hdel.
  destruct (@clean_run_ends E fs0 pre mid post Hp D Hdir Hpre Hmid Hpost Hren Hdel)
    as (fs1 & R & ND & Res & F & C).
  rewrite Res, F, C, K0.
  assert (All : forall f, In f (readdir (backupsFolder E) fs1) ->
                search_to_end re_backup f = true ->
                In f (toDelete 0 (readdir (backupsFolder E) fs1))).
  { intros f Hf S. unfold toDelete. apply in_or_app. left.
    rewrite slice_skipn by lia. cbn [Z.to_nat skipn]. apply In_backups. auto. }
  assert (P : In (final_name (decimal (now E)))
                 (toDelete 0 (readdir (backupsFolder E) fs1))).
  { apply All.
    - apply published_listed. exact (@rename_target _ _ _ _ _ R).
    - apply well_formed_final_search, published_well_formed. }
  split; [reflexivity|]. split; [|split].
  - apply in_or_app. right. right.
    exact (in_map (fun f => CUnlink (path_join (backupsFolder E) f)) _ _ P).
  - rewrite In_without. intros [_ H]. apply H.
    exact (in_map (path_join (backupsFolder E)) _ _ P).
  - apply filter_none. intros f Hf.
    unfold without in Hf. rewrite readdir_filter in Hf.
    apply filter_In in Hf as [Hf Hn]. apply negb_true_iff, mem_not_In in Hn.
    destruct (search_to_end re_backup f) eqn:S; [|reflexivity].
    exfalso. apply Hn. now apply All.
Qed.

Lemma keep_count_zero_keeps_nothing_witness :
  result (handleBackupDatabase keep_none_env orphan_fs (clean_run [] [] [])) = Returns SUCCESS /\
  In (CUnlink (published keep_none_env))
     (calls (final (handleBackupDatabase keep_none_env orphan_fs (clean_run [] [] [])))) /\
  ~ In (published keep_none_env)
       (fs (final (handleBackupDatabase keep_none_env orphan_fs (clean_run [] [] [])))) /\
  filter (search_to_end re_backup)
    (readdir (backupsFolder keep_none_env)
       (fs (final (handleBackupDatabase keep_none_env orphan_fs (clean_run [] [] []))))) = [].
Proof.
  apply (@keep_count_zero_keeps_nothing keep_none_env orphan_fs [] [] []); reflexivity.
Defined.

(** With a keep-count of at least one, a run in which everything succeeds
    keeps the artifact that it publishes, provided no name that the sweep
    takes for a backup is greater, as text, than the published name. *)
Theorem fresh_backup_survives E fs0 pre mid post :
  (1 <= keepLastAmount (backup E))%Z ->
  greatest_backup (final_name (decimal (now E))) (readdir (backupsFolder E) fs0) = true ->
  piped E = true -> distinct fs0 = true ->
  includes (js ".tmp") (backupsFolder E) = false ->
  forallb is_stderr pre = true -> forallb is_stderr mid = true ->
  forallb (fun ev => negb (is_exit ev)) post = true ->
  rename_denied E (backupFilePath E) (published E) = false ->
  (forall q, unlink_denied E q = false) ->
  result (handleBackupDatabase E fs0 (clean_run pre mid post)) = Returns SUCCESS /\
  In (published E) (fs (final (handleBackupDatabase E fs0 (clean_run pre mid post)))) /\
  ~ In (backupFilePath E) (fs (final (handleBackupDatabase E fs0 (clean_run pre mid post)))).
Proof.
  intros K1 G Hp D Hdir Hpre Hmid Hpost Hren Hdel.
  destruct (@clean_run_ends E fs0 pre mid post Hp D Hdir Hpre Hmid Hpost Hren Hdel)
    as (fs1 & R & ND & Res & F & C).
  rewrite Res, F. split; [reflexivity|].
  set (name := final_name (decimal (now E))) in *.
  set (files := readdir (backupsFolder E) fs1).
  assert (Pin : In (published E) fs1) by exact (@rename_target _ _ _ _ _ R).
  assert (Nin : In name (backups files)).
  { apply In_backups. split; [now apply published_listed|].
    apply well_formed_final_search, published_well_formed. }
  assert (Top : forall f, In f (backups files) -> str_leb f name = true).
  { intros f Hf. apply In_backups in Hf as [Hf S].
    apply In_readdir in Hf as [Hf Hn].
    destruct (@rename_elements _ _ _ _ _ _ R Hf) as [Eq|[Hq Hne]].
    - apply path_join_inj in Eq. subst. apply str_leb_refl.
    - apply createWriteStream_elements in Hq as [Eq|Hq]; [contradiction|].
      unfold greatest_backup in G. rewrite forallb_forall in G.
      assert (Hr : In f (readdir (backupsFolder E) fs0)) by (apply In_readdir; auto).
      specialize (G f Hr). now rewrite S in G. }
  assert (NDb : NoDup (backups files)).
  { eapply Permutation_NoDup; [apply backups_perm|].
    apply NoDup_filter. now apply readdir_NoDup. }
  assert (Hd : In name (firstn (Z.to_nat (keepLastAmount (backup E))) (backups files))).
  { pose proof (backups_sorted files) as S.
    destruct (backups files) as [|h t] eqn:Eb; [contradiction|].
    destruct (Z.to_nat (keepLastAmount (backup E))) as [|k] eqn:Ek; [lia|].
    cbn [firstn]. left. destruct Nin as [->|Hin]; [reflexivity|].
    inversion S as [|? ? _ Fa]; subst. rewrite Forall_forall in Fa.
    apply str_leb_antisym; [apply Top; now left | now apply Fa]. }
  split.
  - apply In_without. split; [exact Pin|]. intros H.
    apply in_map_iff in H as (f & Ef & Hf). apply path_join_inj in Ef. subst f.
    unfold toDelete in Hf. fold files in Hf. apply in_app_or in Hf as [Hf|Hf].
    + rewrite slice_skipn in Hf by lia. exact (NoDup_firstn_skipn _ _ NDb Hd Hf).
    + apply In_failedBackups in Hf as [_ Hf].
      apply In_backups in Nin as [_ S]. exact (artifact_kinds_disjoint _ S Hf).
  - rewrite In_without. intros [H _].
    exact (@rename_source _ _ _ _ _ R (@published_not_temporary E) H).
Qed.

Lemma fresh_backup_survives_witness :
  result (handleBackupDatabase example_env orphan_fs (clean_run [] [] [])) = Returns SUCCESS /\
  In (published example_env)
     (fs (final (handleBackupDatabase example_env orphan_fs (clean_run [] [] [])))) /\
  ~ In (backupFilePath example_env)
       (fs (final (handleBackupDatabase example_env orphan_fs (clean_run [] [] [])))).
Proof.
  apply (@fresh_backup_survives example_env orphan_fs [] [] []); try reflexivity.
  simpl. lia.
Defined.

(** ** The time in the names of a run *)

Lemma published_name_of E name :
  includes (js ".tmp") (backupsFolder E) = false ->
  replace_first (js ".tmp") [] (backupFilePath E) = path_join (backupsFolder E) name ->
  name = final_name (decimal (now E)).
Proof.
  intros H Hn. rewrite published_name in Hn by assumption.
  unfold published in Hn. apply path_join_inj in Hn. now symmetry.
Qed.



(** The artifact of a later run comes first in [backups]. For two runs
    whose [Date.now()] are written with the same number of digits, the name
    that the later run publishes stands before the name that the earlier
    run publishes in the list from which the sweep cuts off the first
    [keepLastAmount] entries; so a sweep never deletes the later artifact
    and keeps the earlier one. *)
Theorem later_run_sorts_later E1 E2 n1 n2 files :
  includes (js ".tmp") (backupsFolder E1) = false ->
  includes (js ".tmp") (backupsFolder E2) = false ->
  replace_first (js ".tmp") [] (backupFilePath E1) = path_join (backupsFolder E1) n1 ->
  replace_first (js ".tmp") [] (backupFilePath E2) = path_join (backupsFolder E2) n2 ->
  List.length (decimal (now E1)) = List.length (decimal (now E2)) ->
  (now E1 < now E2)%N ->
  mem n1 files = true -> mem n2 files = true ->
  (exists a b c, backups files = a ++ n2 :: b ++ n1 :: c) /\
  (forall k, (0 <= k)%Z ->
     In n2 (slice k (backups files)) -> In n1 (slice k (backups files))).
Proof.
  intros D1 D2 H1 H2 L Lt M1 M2. apply mem_In in M1, M2.
  apply published_name_of in H1, H2; try assumption. subst n1 n2.
  set (n1 := final_name (decimal (now E1))) in *.
  set (n2 := final_name (decimal (now E2))) in *.
  assert (Hlt : str_ltb n1 n2 = true).
  { unfold n1, n2, final_name. rewrite str_ltb_app.
    rewrite digits_ltb_value, !digits_value_decimal;
      try (apply all_digits_forallb, decimal_digits); [|assumption].
    now apply N.ltb_lt. }
  assert (Hnle : str_leb n2 n1 = false) by (unfold str_leb; now rewrite Hlt).
  assert (B1 : In n1 (backups files)).
  { apply In_backups. split; [assumption|].
    apply well_formed_final_search, published_well_formed. }
  assert (B2 : In n2 (backups files)).
  { apply In_backups. split; [assumption|].
    apply well_formed_final_search, published_well_formed. }
  pose proof (backups_sorted files) as S.
  assert (Before : forall l1 l2, backups files = l1 ++ l2 ->
                                 In n1 l1 -> In n2 l2 -> False).
  { intros l1 l2 E I1 I2. rewrite E in S.
    pose proof (StronglySorted_app_inv _ _ S n1 n2 I1 I2) as R. cbv beta in R. congruence. }
  assert (Dec : exists a b c, backups files = a ++ n2 :: b ++ n1 :: c).
  { apply in_split in B2 as (a & r & E).
    assert (I : In n1 (a ++ n2 :: r)) by now rewrite <- E.
    apply in_app_or in I as [I|[I|I]].
    - exfalso. apply (Before a (n2 :: r) E I). now left.
    - exfalso. rewrite I, str_ltb_irrefl in Hlt. discriminate.
    - apply in_split in I as (b & c & ->). now exists a, b, c. }
  split; [exact Dec|].
  intros k Hk I2. rewrite slice_skipn in * by assumption.
  set (m := Z.to_nat k) in *.
  rewrite <- (firstn_skipn m (backups files)) in B1.
  apply in_app_or in B1 as [I1|I1]; [|assumption].
  exfalso. exact (Before _ _ (eq_sym (firstn_skipn m (backups files))) I1 I2).
Qed.

Lemma later_run_sorts_later_witness :
  (exists a b c,
     backups [js "immich-db-backup-1699999999999.sql.gz";
              js "immich-db-backup-1700000000000.sql.gz";
              js "immich-db-backup-1650000000000.sql.gz.tmp"] =
     a ++ js "immich-db-backup-1700000000000.sql.gz"
       :: b ++ js "immich-db-backup-1699999999999.sql.gz" :: c) /\
  (forall k, (0 <= k)%Z ->
     In (js "immich-db-backup-1700000000000.sql.gz")
        (slice k (backups [js "immich-db-backup-1699999999999.sql.gz";
                           js "immich-db-backup-1700000000000.sql.gz";
                           js "immich-db-backup-1650000000000.sql.gz.tmp"])) ->
     In (js "immich-db-backup-1699999999999.sql.gz")
        (slice k (backups [js "immich-db-backup-1699999999999.sql.gz";
                           js "immich-db-backup-1700000000000.sql.gz";
                           js "immich-db-backup-1650000000000.sql.gz.tmp"]))).
Proof.
  apply (@later_run_sorts_later earlier_env example_env
           (js "immich-db-backup-1699999999999.sql.gz")
           (js "immich-db-backup-1700000000000.sql.gz")
           [js "immich-db-backup-1699999999999.sql.gz";
            js "immich-db-backup-1700000000000.sql.gz";
            js "immich-db-backup-1650000000000.sql.gz.tmp"]); reflexivity.
Defined.

(** ** The cron registry *)

Lemma dispatch_registered s e :
  (backupLock s = true -> cron s <> []) ->
  (cron s = [] \/ exists x st l, cron s = AddCronJob (js "backupDatabase") x st :: l) ->
  (backupLock (dispatch s e) = true -> cron (dispatch s e) <> []) /\
  (cron (dispatch s e) = [] \/
   exists x st l, cron (dispatch s e) = AddCronJob (js "backupDatabase") x st :: l).
Proof.
  intros L H.
  destruct e as [[|] c [|]|n [o|]]; cbn [dispatch onBootstrap onConfigUpdate worker_eqb negb
                                          backupLock cron]; try (split; assumption).
  - split; [intros _; now destruct (cron s)|].
    destruct H as [->|(x & st & l & ->)]; right; simpl; eauto.
  - split; [discriminate | exact H].
  - destruct (backupLock s) eqn:B; cbn [negb backupLock cron];
      [|split; [rewrite B; discriminate | exact H]].
    split; [intros _; now destruct (cron s)|].
    destruct H as [Hn|(x & st & l & ->)]; [now specialize (L eq_refl)|].
    right. simpl. eauto.
Qed.

(** The service never updates a cron job that it has not added: whatever
    events an instance receives, the first call it makes to the cron
    registry, if it makes any, adds the job [backupDatabase]. *)
Theorem cron_job_added_before_updated evs :
  cron (run_events evs initial) = [] \/
  exists x st l,
    cron (run_events evs initial) = AddCronJob (js "backupDatabase") x st :: l.
Proof.
  unfold run_events.
  assert (G : forall s,
            (backupLock s = true -> cron s <> []) ->
            (cron s = [] \/ exists x st l, cron s = AddCronJob (js "backupDatabase") x st :: l) ->
            cron (fold_left dispatch evs s) = [] \/
            exists x st l,
              cron (fold_left dispatch evs s) = AddCronJob (js "backupDatabase") x st :: l).
  { induction evs as [|e evs IH]; intros s L H; simpl; [exact H|].
    destruct (dispatch_registered s e L H) as [L' H']. now apply IH. }
  apply G; [discriminate | now left].
Qed.

(** ** ServerFeatures *)

(** The hash code tells only whether the two flags agree: two objects in
    which they agree, or two in which they differ, have the same hash code,
    and it is 0 when they agree. *)
Theorem server_features_hash_collides (bool_hash : bool -> Z) a b :
  Bool.eqb (ServerFeatures.hasPasswordLogin a) (ServerFeatures.hasOAuthLogin a) =
  Bool.eqb (ServerFeatures.hasPasswordLogin b) (ServerFeatures.hasOAuthLogin b) ->
  ServerFeatures.hashCode bool_hash a = ServerFeatures.hashCode bool_hash b /\
  (ServerFeatures.hasPasswordLogin a = ServerFeatures.hasOAuthLogin a ->
   ServerFeatures.hashCode bool_hash a = 0%Z).
Proof.
  unfold ServerFeatures.hashCode. destruct a as [pa oa], b as [pb ob]. simpl.
  intros H. split.
  - destruct pa, oa, pb, ob; simpl in H; try discriminate H;
      rewrite ?Z.lxor_nilpotent; try reflexivity; apply Z.lxor_comm.
  - intros ->. apply Z.lxor_nilpotent.
Qed.

Lemma server_features_hash_collides_witness :
  ServerFeatures.hashCode (fun b : bool => if b then 1231%Z else 1237%Z)
    {| ServerFeatures.hasPasswordLogin := true; ServerFeatures.hasOAuthLogin := false |} =
  ServerFeatures.hashCode (fun b : bool => if b then 1231%Z else 1237%Z)
    {| ServerFeatures.hasPasswordLogin := false; ServerFeatures.hasOAuthLogin := true |} /\
  (ServerFeatures.hasPasswordLogin
     {| ServerFeatures.hasPasswordLogin := true; ServerFeatures.hasOAuthLogin := false |} =
   ServerFeatures.hasOAuthLogin
     {| ServerFeatures.hasPasswordLogin := true; ServerFeatures.hasOAuthLogin := false |} ->
   ServerFeatures.hashCode (fun b : bool => if b then 1231%Z else 1237%Z)
     {| ServerFeatures.hasPasswordLogin := true; ServerFeatures.hasOAuthLogin := false |} = 0%Z).
Proof.
  apply (@server_features_hash_collides (fun b : bool => if b then 1231%Z else 1237%Z)
           {| ServerFeatures.hasPasswordLogin := true; ServerFeatures.hasOAuthLogin := false |}
           {| ServerFeatures.hasPasswordLogin := false; ServerFeatures.hasOAuthLogin := true |}).
  reflexivity.
Defined.

(** [copyWith] without arguments returns an equal object, with both
    arguments it does not depend on the receiver, and two calls in a row are
    one call whose arguments are the later ones where given, else the
    earlier ones. *)
Theorem server_features_copyWith_composes self p1 o1 p2 o2 :
  ServerFeatures.copyWith self None None = self /\
  (forall p o, ServerFeatures.copyWith self (Some p) (Some o) =
               {| ServerFeatures.hasPasswordLogin := p; ServerFeatures.hasOAuthLogin := o |}) /\
  ServerFeatures.copyWith (ServerFeatures.copyWith self p1 o1) p2 o2 =
  ServerFeatures.copyWith self
    (match p2 with Some _ => p2 | None => p1 end)
    (match o2 with Some _ => o2 | None => o1 end).
Proof.
  destruct self as [p o]. repeat split.
  destruct p1, o1, p2, o2; reflexivity.
Qed.

(** [toString] tells objects apart: equal texts come from equal objects. *)
Theorem server_features_toString_injective a b :
  ServerFeatures.toString a = ServerFeatures.toString b -> a = b.
Proof.
  destruct a as [[|] [|]], b as [[|] [|]]; intros H;
    try reflexivity; vm_compute in H; discriminate H.
Qed.

Lemma server_features_toString_injective_witness :
  ServerFeatures.initial = ServerFeatures.copyWith ServerFeatures.initial (Some true) None.
Proof.
  apply (@server_features_toString_injective ServerFeatures.initial
           (ServerFeatures.copyWith ServerFeatures.initial (Some true) None)).
  reflexivity.
Defined.

(** ** StoreRepository *)

Lemma upsert_cases (T : Type) (key : StoreRepository.StoreKey T) value write_fails tbl :
  StoreRepository.upsert key value write_fails tbl =
  if negb write_fails && castable key value
  then (StoreRepository.insertOnConflictUpdate
          {| StoreRepository.row_id := StoreRepository.id key;
             StoreRepository.intValue :=
               match StoreRepository.type key with
               | StoreRepository.TInt =>
                   StoreRepository.as_int (StoreRepository.toPrimitive key value)
               | _ => None
               end;
             StoreRepository.stringValue :=
               match StoreRepository.type key with
               | StoreRepository.TString =>
                   StoreRepository.as_String (StoreRepository.toPrimitive key value)
               | _ => None
               end |} tbl, true)
  else (tbl, false).
Proof.
  unfold StoreRepository.upsert, castable.
  destruct (StoreRepository.type key), (StoreRepository.toPrimitive key value), write_fails;
    reflexivity.
Qed.

(** What [upsert] has stored, [get] returns: for a key of type [int] or
    [String] whose converter takes the primitive of the value back to the
    value, an [upsert] that the database accepts returns [true], and [get]
    then returns the value, whatever the table held before. *)
Theorem store_upsert_get (T : Type) (key : StoreRepository.StoreKey T) value tbl :
  has_column key = true -> castable key value = true ->
  StoreRepository.fromPrimitive key (StoreRepository.toPrimitive key value) = Some value ->
  snd (StoreRepository.upsert key value false tbl) = true /\
  StoreRepository.get key (fst (StoreRepository.upsert key value false tbl)) =
    StoreRepository.Value value.
Proof.
  intros Hc Hk Hr. rewrite upsert_cases, Hk. cbn [negb andb fst snd].
  split; [reflexivity|].
  unfold StoreRepository.get, StoreRepository.tryGet, StoreRepository.insertOnConflictUpdate.
  cbn [StoreRepository.row_id]. rewrite Z.eqb_refl.
  unfold StoreRepository.getValueFromStoreData, castable, has_column in *.
  cbn [StoreRepository.intValue StoreRepository.stringValue].
  destruct (StoreRepository.type key); try discriminate;
    destruct (StoreRepository.toPrimitive key value); try discriminate;
    cbn [StoreRepository.as_int StoreRepository.as_String option_map];
    rewrite Hr; reflexivity.
Qed.

Lemma store_upsert_get_witness :
  snd (StoreRepository.upsert flag_key true false StoreRepository.empty) = true /\
  StoreRepository.get flag_key
    (fst (StoreRepository.upsert flag_key true false StoreRepository.empty)) =
    StoreRepository.Value true.
Proof.
  apply (@store_upsert_get bool flag_key true StoreRepository.empty); reflexivity.
Defined.

(** [upsert] and [delete] touch the row of their key only: what [tryGet]
    returns for a key with another id is the same before and after. *)
Theorem store_other_keys_untouched (T U : Type)
        (key : StoreRepository.StoreKey T) (other : StoreRepository.StoreKey U)
        value write_fails tbl :
  StoreRepository.id other <> StoreRepository.id key ->
  StoreRepository.tryGet other (fst (StoreRepository.upsert key value write_fails tbl)) =
    StoreRepository.tryGet other tbl /\
  StoreRepository.tryGet other (StoreRepository.delete key tbl) =
    StoreRepository.tryGet other tbl.
Proof.
  intros H. apply Z.eqb_neq in H. split.
  - rewrite upsert_cases. destruct (negb write_fails && castable key value); [|reflexivity].
    unfold StoreRepository.tryGet, StoreRepository.insertOnConflictUpdate.
    cbn [fst StoreRepository.row_id]. now rewrite H.
  - unfold StoreRepository.tryGet, StoreRepository.delete. now rewrite H.
Qed.

Lemma store_other_keys_untouched_witness :
  StoreRepository.tryGet version_key
    (fst (StoreRepository.upsert flag_key true false
            (fst (StoreRepository.upsert version_key 3%Z false StoreRepository.empty)))) =
    StoreRepository.tryGet version_key
      (fst (StoreRepository.upsert version_key 3%Z false StoreRepository.empty)) /\
  StoreRepository.tryGet version_key
    (StoreRepository.delete flag_key
       (fst (StoreRepository.upsert version_key 3%Z false StoreRepository.empty))) =
    StoreRepository.tryGet version_key
      (fst (StoreRepository.upsert version_key 3%Z false StoreRepository.empty)).
Proof.
  apply (@store_other_keys_untouched bool Z flag_key version_key true false
           (fst (StoreRepository.upsert version_key 3%Z false StoreRepository.empty))).
  discriminate.
Defined.

(** After [delete] of a key, and after [deleteAll], [tryGet] returns [null]
    and [get] throws [StoreKeyNotFoundException] for the key, whatever the
    table held. *)
Theorem store_delete_then_get (T : Type) (key : StoreRepository.StoreKey T) tbl :
  StoreRepository.tryGet key (StoreRepository.delete key tbl) = None /\
  StoreRepository.get key (StoreRepository.delete key tbl) =
    StoreRepository.StoreKeyNotFoundException T (StoreRepository.id key) /\
  StoreRepository.tryGet key (StoreRepository.deleteAll tbl) = None /\
  StoreRepository.get key (StoreRepository.deleteAll tbl) =
    StoreRepository.StoreKeyNotFoundException T (StoreRepository.id key).
Proof.
  unfold StoreRepository.get, StoreRepository.tryGet, StoreRepository.delete,
    StoreRepository.deleteAll, StoreRepository.empty, StoreRepository.getValueFromStoreData.
  rewrite Z.eqb_refl. destruct (StoreRepository.type key); repeat split.
Qed.

(** A key whose type is neither [int] nor [String] loses its value without
    a sign: [upsert] writes a row with both columns [null] and returns
    [true], and [tryGet] returns [null] afterwards. *)
Theorem store_other_type_is_lost (T : Type) (key : StoreRepository.StoreKey T) value tbl :
  has_column key = false ->
  snd (StoreRepository.upsert key value false tbl) = true /\
  fst (StoreRepository.upsert key value false tbl) (StoreRepository.id key) =
    Some {| StoreRepository.row_id := StoreRepository.id key;
            StoreRepository.intValue := None; StoreRepository.stringValue := None |} /\
  StoreRepository.tryGet key (fst (StoreRepository.upsert key value false tbl)) = None /\
  StoreRepository.get key (fst (StoreRepository.upsert key value false tbl)) =
    StoreRepository.StoreKeyNotFoundException T (StoreRepository.id key).
Proof.
  unfold has_column. intros H.
  unfold StoreRepository.get, StoreRepository.tryGet, StoreRepository.upsert,
    StoreRepository.getValueFromStoreData.
  destruct (StoreRepository.type key); try discriminate.
  cbn [fst snd]. unfold StoreRepository.insertOnConflictUpdate.
  cbn [StoreRepository.row_id]. rewrite Z.eqb_refl. repeat split.
Qed.

Lemma store_other_type_is_lost_witness :
  snd (StoreRepository.upsert raw_flag_key true false StoreRepository.empty) = true /\
  fst (StoreRepository.upsert raw_flag_key true false StoreRepository.empty)
      (StoreRepository.id raw_flag_key) =
    Some {| StoreRepository.row_id := StoreRepository.id raw_flag_key;
            StoreRepository.intValue := None; StoreRepository.stringValue := None |} /\
  StoreRepository.tryGet raw_flag_key
    (fst (StoreRepository.upsert raw_flag_key true false StoreRepository.empty)) = None /\
  StoreRepository.get raw_flag_key
    (fst (StoreRepository.upsert raw_flag_key true false StoreRepository.empty)) =
    StoreRepository.StoreKeyNotFoundException bool (StoreRepository.id raw_flag_key).
Proof.
  apply (@store_other_type_is_lost bool raw_flag_key true StoreRepository.empty).
  reflexivity.
Defined.
